(** * Supersonic flow past a cone: oblique shock, Taylor-Maccoll, RK4

    A shallow embedding of the code cells of
    [supersonic-flow-past-a-cone.ipynb]:

    - cell 2, class [InitialConditions];
    - cell 4, the module-level names [setup] and [ob] and the function
      [oblique_shock_wave];
    - cell 6, [taylor_maccoll];
    - cell 8, [rk4];
    - cell 10, [central_differences] (the body of [newton_raphson] in the
      same cell is not Python and has no embedding).

    Conventions.  A [float] or [numpy.float64] is a real number: rounding,
    [inf] and [nan] are not represented, so statements about computed
    values are made where every divisor is non-zero and every radicand is
    non-negative.  Python's control effects are kept: a module namespace,
    a heap of objects reached through references, and exceptions.
    Division of two Python floats raises [ZeroDivisionError] on a zero
    divisor and a power of a Python float raises [OverflowError] when its
    result leaves the float range; the same operations on a numpy scalar
    do not raise.  An index is a Python integer; where a statement names
    the exception of an index that is not a constant, it takes the index
    to fit a machine word, beyond which numpy answers with
    [OverflowError]. *)

From Stdlib Require Import Reals Lra Lia ZArith String Psatz.
From stdpp Require Import gmap strings list fin_maps.

Open Scope R_scope.

(** ** Python values, objects and exceptions *)

Definition loc := nat.

(** What a name or an expression can denote: a float, or a reference to a
    heap object. *)
Inductive value :=
| VFloat (x : R)
| VRef (l : loc).

(** Heap objects: a class instance with its attribute dictionary (all
    attributes of this program hold floats), or a one-dimensional
    [numpy.ndarray] of floats. *)
Inductive object :=
| Instance (attrs : gmap string R)
| NDArray (data : list R).

(** The built-in exceptions the modelled statements can raise. *)
Inductive exn :=
| NameError (name : string)
| AttributeError (attr : string)
| TypeError
| IndexError
| ZeroDivisionError
| OverflowError.


Inductive outcome (A : Type) :=
| Returned (a : A)
| Raised (e : exn).
Arguments Returned {A} a.
Arguments Raised {A} e.

(** The interpreter state a call can see: the module namespace and the
    heap. *)
Record state := State {
  globals : gmap string value;
  heap : gmap loc object
}.

Definition set_heap (h : gmap loc object) (st : state) : state :=
  State (globals st) h.

(** A statement or call: runs in a state, returns or raises, and leaves a
    state behind. *)
Definition py (A : Type) : Type := state -> outcome A * state.

Definition ret {A} (a : A) : py A := fun st => (Returned a, st).

Definition raise {A} (e : exn) : py A := fun st => (Raised e, st).

Definition bind {A B} (c : py A) (k : A -> py B) : py B :=
  fun st =>
    match c st with
    | (Returned a, st') => k a st'
    | (Raised e, st') => (Raised e, st')
    end.

Declare Scope py_scope.
Delimit Scope py_scope with py.
Bind Scope py_scope with py.
Notation "x <- c ;; k" := (bind c (fun x => k))
  (at level 100, c at next level, right associativity) : py_scope.
Notation "c ;;; k" := (bind c (fun _ => k))
  (at level 100, right associativity) : py_scope.
Open Scope py_scope.

(** [LOAD_GLOBAL name]. *)
Definition load_global (name : string) : py value :=
  fun st =>
    match globals st !! name with
    | Some v => (Returned v, st)
    | None => (Raised (NameError name), st)
    end.

(** [v.attr] read.  Floats and arrays have none of the attributes this
    program reads; a reference outside the heap does not occur in a state
    built by Python and is given the same answer. *)
Definition getattr (v : value) (attr : string) : py R :=
  fun st =>
    match v with
    | VRef l =>
        match heap st !! l with
        | Some (Instance attrs) =>
            match attrs !! attr with
            | Some x => (Returned x, st)
            | None => (Raised (AttributeError attr), st)
            end
        | _ => (Raised (AttributeError attr), st)
        end
    | VFloat _ => (Raised (AttributeError attr), st)
    end.

(** [v.attr = x]: an instance takes the attribute into its dictionary;
    floats and arrays refuse new attributes. *)
Definition setattr (v : value) (attr : string) (x : R) : py unit :=
  fun st =>
    match v with
    | VRef l =>
        match heap st !! l with
        | Some (Instance attrs) =>
            (Returned tt, set_heap (<[l := Instance (<[attr := x]> attrs)]> (heap st)) st)
        | _ => (Raised (AttributeError attr), st)
        end
    | VFloat _ => (Raised (AttributeError attr), st)
    end.

(** Python indexing of a sequence of length [n]: [0 .. n-1] from the
    front, [-n .. -1] from the back, anything else is out of bounds. *)
Definition index_of (n : nat) (k : Z) : option nat :=
  if ((0 <=? k) && (k <? Z.of_nat n))%Z then Some (Z.to_nat k)
  else if ((- Z.of_nat n <=? k) && (k <? 0))%Z then Some (Z.to_nat (Z.of_nat n + k))
  else None.

(** [v[k]] read.  A float has no items; the answer given is that of a
    Python float, [TypeError] (a numpy scalar answers [IndexError]).  The
    theorems of this file subscript arrays only. *)
Definition getitem (v : value) (k : Z) : py R :=
  fun st =>
    match v with
    | VRef l =>
        match heap st !! l with
        | Some (NDArray data) =>
            match index_of (length data) k with
            | Some i =>
                match data !! i with
                | Some x => (Returned x, st)
                | None => (Raised IndexError, st)
                end
            | None => (Raised IndexError, st)
            end
        | _ => (Raised TypeError, st)
        end
    | VFloat _ => (Raised TypeError, st)
    end.

(** [v[k] = x]: an in-place store into the array object. *)
Definition setitem (v : value) (k : Z) (x : R) : py unit :=
  fun st =>
    match v with
    | VRef l =>
        match heap st !! l with
        | Some (NDArray data) =>
            match index_of (length data) k with
            | Some i => (Returned tt, set_heap (<[l := NDArray (<[i := x]> data)]> (heap st)) st)
            | None => (Raised IndexError, st)
            end
        | _ => (Raised TypeError, st)
        end
    | VFloat _ => (Raised TypeError, st)
    end.

(** [np.zeros(n)]: a new array object at a location not yet in the heap. *)
Definition np_zeros (n : nat) : py value :=
  fun st =>
    let l := fresh (dom (heap st)) in
    (Returned (VRef l), set_heap (<[l := NDArray (replicate n 0)]> (heap st)) st).

(** A global name used as a float operand.  A reference is refused with
    [TypeError], as Python refuses a class instance (an array operand
    would be taken element by element, and the assignment would end at its
    store); the theorems that name the exception bind the name to a float
    or leave it unbound. *)
Definition load_float (name : string) : py R :=
  v <- load_global name ;;
  match v with
  | VFloat x => ret x
  | VRef _ => raise TypeError
  end.

(** The divisor test of [a / b] on two Python floats. *)
Definition float_divisor (b : R) : py unit :=
  if Req_EM_T b 0 then raise ZeroDivisionError else ret tt.

(** [np.finfo(float).eps]. *)
Definition float_eps : R := / 2 ^ 52.

(** [sys.float_info.max], the largest float. *)
Definition float_max : R := (2 - / 2 ^ 52) * 2 ^ 1023.

(** The range test of [x**2] on a Python float: the power raises when its
    result is beyond the largest float. *)
Definition float_square (x : R) : py unit :=
  if Rle_dec (x ^ 2) float_max then ret tt else raise OverflowError.

(** ** Cell 2: class InitialConditions *)

(** [InitialConditions(m1, beta, gamma)]: the attribute dictionary that
    [__init__] leaves on the new instance; [beta] is given in degrees and
    stored in radians. *)
Definition InitialConditions (m1 beta gamma : R) : gmap string R :=
  <["m1" := m1]> (<["beta" := beta * PI / 180]> (<["gamma" := gamma]> ∅)).

(** [setup.attr]. *)
Definition setup_attr (attr : string) : py R :=
  s <- load_global "setup" ;; getattr s attr.

(** ** Cell 4: oblique shock relations *)

(** The right-hand sides of the assignments of [oblique_shock_wave], as
    functions of the attribute values they read and of the locals computed
    before them. *)
Module Shock.

(** [mn1 = setup.m1*np.sin(setup.beta)] *)
Definition mn1 (m1 beta : R) : R := m1 * sin beta.

(** [rho2_rho1 = ((setup.gamma + 1)*mn1**2)/(2 + (setup.gamma - 1)*mn1**2)] *)
Definition rho2_rho1 (gamma mn1 : R) : R :=
  ((gamma + 1) * mn1 ^ 2) / (2 + (gamma - 1) * mn1 ^ 2).

(** [pre2_pre1 = 1.0 + 2*setup.gamma/(setup.gamma + 1)*(mn1**2 - 1)] *)
Definition pre2_pre1 (gamma mn1 : R) : R :=
  1.0 + 2 * gamma / (gamma + 1) * (mn1 ^ 2 - 1).

(** [mn2 = np.sqrt((1.0 + 0.5*(setup.gamma - 1)*mn1**2)/(setup.gamma*mn1**2 - 0.5*(setup.gamma - 1)))] *)
Definition mn2 (gamma mn1 : R) : R :=
  sqrt ((1.0 + 0.5 * (gamma - 1) * mn1 ^ 2) / (gamma * mn1 ^ 2 - 0.5 * (gamma - 1))).

(** [delta = np.arctan(2*1/np.tan(setup.beta)*(mn1**2-1)/(setup.m1**2*(setup.gamma+np.cos(2*setup.beta)+2)))] *)
Definition delta (m1 beta gamma mn1 : R) : R :=
  atan (2 * 1 / tan beta * (mn1 ^ 2 - 1) / (m1 ^ 2 * (gamma + cos (2 * beta) + 2))).

(** [m2 = mn2/np.sin(setup.beta-delta)] *)
Definition m2 (beta mn2 delta : R) : R := mn2 / sin (beta - delta).

End Shock.

(** The last three statements of [oblique_shock_wave]:
    [ob[0] = delta], [ob[1] = m2], [return ob].  [ob] is the module-level
    array; the function returns the reference the name holds, not a copy. *)
Definition shock_store (delta m2 : R) : py value :=
  ob0 <- load_global "ob" ;;
  setitem ob0 0 delta ;;;
  ob1 <- load_global "ob" ;;
  setitem ob1 1 m2 ;;;
  load_global "ob".

(** [def oblique_shock_wave():], statement by statement.  Every [setup.x]
    is a load of the global [setup] followed by an attribute read; within
    one statement the attributes are read in the order of their first
    occurrence.  [2*setup.gamma/(setup.gamma + 1)] divides two Python
    floats; every other quotient has a numpy scalar operand.  [setup.m1**2]
    is a power of a Python float; [mn1] is a numpy scalar, so [mn1**2] does
    not raise.  The target of the fourth assignment is the attribute [m1]
    of the global name [tem2_tesetup]. *)
Definition oblique_shock_wave : py value :=
  (* mn1 *)
  m1 <- setup_attr "m1" ;;
  beta <- setup_attr "beta" ;;
  let mn1 := Shock.mn1 m1 beta in
  (* rho2_rho1 *)
  gamma <- setup_attr "gamma" ;;
  let rho2_rho1 := Shock.rho2_rho1 gamma mn1 in
  (* pre2_pre1 *)
  gamma <- setup_attr "gamma" ;;
  float_divisor (gamma + 1) ;;;
  let pre2_pre1 := Shock.pre2_pre1 gamma mn1 in
  (* tem2_tesetup.m1 = pre2_pre1/rho2_rho1 *)
  target <- load_global "tem2_tesetup" ;;
  setattr target "m1" (pre2_pre1 / rho2_rho1) ;;;
  (* mn2 *)
  gamma <- setup_attr "gamma" ;;
  let mn2 := Shock.mn2 gamma mn1 in
  (* delta *)
  beta <- setup_attr "beta" ;;
  m1 <- setup_attr "m1" ;;
  float_square m1 ;;;
  gamma <- setup_attr "gamma" ;;
  let delta := Shock.delta m1 beta gamma mn1 in
  (* m2 *)
  beta <- setup_attr "beta" ;;
  let m2 := Shock.m2 beta mn2 delta in
  shock_store delta m2.

(** ** Cell 6: Taylor-Maccoll equations *)

(** The right-hand sides of the assignments of [taylor_maccoll]. *)
Module Field.

(** [v_nondim = 1.0/np.sqrt(2.0/(setup.gamma-1)/m2**2+1.0)] *)
Definition v_nondim (gamma m2 : R) : R :=
  1.0 / sqrt (2.0 / (gamma - 1) / m2 ^ 2 + 1.0).

(** [v_nondim_r = v_nondim*np.sqrt(1.0/(1.0+np.tan(setup.beta-delta)**2))] *)
Definition v_nondim_r (beta delta v_nondim : R) : R :=
  v_nondim * sqrt (1.0 / (1.0 + tan (beta - delta) ^ 2)).

(** [v_nondim_theta = v_nondim_r*np.tan(setup.beta-delta)] *)
Definition v_nondim_theta (beta delta v_nondim_r : R) : R :=
  v_nondim_r * tan (beta - delta).

(** The quotient assigned to [tm[2]]:
    [(0.5*(gamma-1)*(1-v_nondim**2)*(2*v_nondim_r+v_nondim_theta/np.tan(delta))-
      v_nondim_r*v_nondim_theta**2)/(v_nondim_theta**2 + 0.5*(gamma-1)*(v_nondim**2-1))],
    dividend and divisor. *)
Definition tm2_num (gamma delta v_nondim v_nondim_r v_nondim_theta : R) : R :=
  0.5 * (gamma - 1) * (1 - v_nondim ^ 2) * (2 * v_nondim_r + v_nondim_theta / tan delta)
  - v_nondim_r * v_nondim_theta ^ 2.

Definition tm2_den (gamma v_nondim v_nondim_theta : R) : R :=
  v_nondim_theta ^ 2 + 0.5 * (gamma - 1) * (v_nondim ^ 2 - 1).

Definition tm2 (gamma delta v_nondim v_nondim_r v_nondim_theta : R) : R :=
  tm2_num gamma delta v_nondim v_nondim_r v_nondim_theta
  / tm2_den gamma v_nondim v_nondim_theta.

End Field.

(** [def taylor_maccoll(delta, m2):].  The arguments are numpy scalars (the
    entries of the solver's array), so only [2.0/(setup.gamma-1)] divides
    two Python floats.  Called with a Python float for [m2], the second
    assignment would also raise where [m2**2] is zero or beyond the float
    range; a statement that names the exception of a call that gets this
    far keeps [m2**2] within [float_range].  [tm] is a fresh array of two
    entries; the name [gamma] in the last assignment is a global name, not
    [setup.gamma], and the right-hand side is evaluated before the store
    into [tm[2]]. *)
Definition taylor_maccoll (delta m2 : R) : py value :=
  ob_array <- oblique_shock_wave ;;
  tm <- np_zeros 2 ;;
  (* v_nondim *)
  gamma_s <- setup_attr "gamma" ;;
  float_divisor (gamma_s - 1) ;;;
  let v_nondim := Field.v_nondim gamma_s m2 in
  (* v_nondim_r *)
  beta <- setup_attr "beta" ;;
  let v_nondim_r := Field.v_nondim_r beta delta v_nondim in
  (* v_nondim_theta *)
  beta <- setup_attr "beta" ;;
  let v_nondim_theta := Field.v_nondim_theta beta delta v_nondim_r in
  (* tm[0] = ob_array[0] *)
  ob_0 <- getitem ob_array 0 ;;
  setitem tm 0 ob_0 ;;;
  (* tm[1] = v_nondim_theta *)
  setitem tm 1 v_nondim_theta ;;;
  (* tm[2] = ... *)
  gamma <- load_float "gamma" ;;
  setitem tm 2 (Field.tm2 gamma delta v_nondim v_nondim_r v_nondim_theta) ;;;
  ret tm.

(** ** Cell 8: Runge-Kutta *)

(** What [rk4] asks of its state [y] and of the values of [f]: a sum, a
    product with a float and a quotient by a float, as floats and numpy
    arrays of one shape have them (element by element). *)
Class StateSpace (V : Type) := {
  vadd : V -> V -> V;
  vscale : R -> V -> V;
  vdiv : V -> R -> V;
  vscale_1 : forall v, vscale 1 v = v;
  vdiv_vscale : forall v c, vdiv v c = vscale (/ c) v
}.

Notation "u ⊕ v" := (vadd u v) (at level 50, left associativity).
Notation "c ⊙ v" := (vscale c v) (at level 40, left associativity).
Notation "v ⊘ c" := (vdiv v c) (at level 40, left associativity).

(** A float state. *)
#[global] Instance float_space : StateSpace R := {|
  vadd := Rplus;
  vscale := Rmult;
  vdiv := Rdiv;
  vscale_1 := Rmult_1_l;
  vdiv_vscale := fun v c => Rmult_comm v (/ c)
|}.

(** A state of several components, such as the two velocity components. *)
#[global] Instance pair_space {A B : Type} {SA : StateSpace A} {SB : StateSpace B} :
  StateSpace (A * B) := {|
  vadd := fun u v => (fst u ⊕ fst v, snd u ⊕ snd v);
  vscale := fun c v => (c ⊙ fst v, c ⊙ snd v);
  vdiv := fun v c => (fst v ⊘ c, snd v ⊘ c);
  vscale_1 := fun v =>
    match v with (a, b) => f_equal2 pair (vscale_1 a) (vscale_1 b) end;
  vdiv_vscale := fun v c =>
    match v with (a, b) => f_equal2 pair (vdiv_vscale a c) (vdiv_vscale b c) end
|}.

(** [def rk4(dx,x,y):].  The derivative function [f] is a free name of the
    body that no cell binds; it is taken as a parameter, and it may raise. *)
Definition rk4 {V} {S : StateSpace V} (f : R -> V -> py V) (dx x : R) (y : V) : py V :=
  f1 <- f x y ;;
  let k1 := dx ⊙ f1 in
  f2 <- f (x + 0.5 * dx) (y ⊕ 0.5 ⊙ k1) ;;
  let k2 := dx ⊙ f2 in
  f3 <- f (x + 0.5 * dx) (y ⊕ 0.5 ⊙ k2) ;;
  let k3 := dx ⊙ f3 in
  f4 <- f (x + 1.0 * dx) (y ⊕ 1.0 ⊙ k3) ;;
  let k4 := dx ⊙ f4 in
  ret ((k1 ⊕ 2 ⊙ k2 ⊕ 2 ⊙ k3 ⊕ k4) ⊘ 6.0).

(** ** Cell 10: finite differences *)

(** [def central_differences(x,y):].  The index [i] is a free name of the
    body that no cell binds; it is taken as a parameter.  [y] is a
    reference to an array; [x] is not used. *)
Definition central_differences (i : Z) (x : R) (y : value) : py R :=
  let eps := sqrt float_eps in
  y_next <- getitem y (i + 1) ;;
  y_here <- getitem y i ;;
  y_prev <- getitem y (i - 1) ;;
  let dydx := (y_next - 2 * y_here + y_prev) / eps ^ 2 in
  ret dydx.

(** ** The notebook's module state *)

(** The state cell 4 leaves behind, for an instance built from
    [(m1, beta, gamma)] and an array [ob] with the given contents: [setup]
    and [ob] are the only data names bound. *)
Definition module_state (m1 beta gamma : R) (ob : list R) : state :=
  State (<["setup" := VRef 0%nat]> (<["ob" := VRef 1%nat]> ∅))
        (<[0%nat := Instance (InitialConditions m1 beta gamma)]>
           (<[1%nat := NDArray ob]> ∅)).

(** [setup = InitialConditions(3.0,30,1.4)], [ob = np.zeros(2)]. *)
Definition notebook_state : state := module_state 3.0 30 1.4 [0; 0].

(** The same state with one more module-level name: [tem2_tesetup], bound
    to an instance of its own that has no attribute yet.  No cell creates
    this binding; it is the least that lets the fourth assignment of
    [oblique_shock_wave] execute. *)
Definition scratch_state (m1 beta gamma : R) (ob : list R) : state :=
  State (<["tem2_tesetup" := VRef 2%nat]> (globals (module_state m1 beta gamma ob)))
        (<[2%nat := Instance ∅]> (heap (module_state m1 beta gamma ob))).

(** A state whose heap holds one array, at location 0, and whose namespace
    is empty: what a caller passes to [central_differences] as [y]. *)
Definition array_state (data : list R) : state :=
  State ∅ (<[0%nat := NDArray data]> ∅).

(** ** Vocabulary of the statements *)

(** The locals [delta] and [m2] of [oblique_shock_wave] as functions of the
    three attributes of [setup] ([beta] in radians, as stored). *)
Definition shock_delta (m1 beta gamma : R) : R :=
  Shock.delta m1 beta gamma (Shock.mn1 m1 beta).

Definition shock_m2 (m1 beta gamma : R) : R :=
  Shock.m2 beta (Shock.mn2 gamma (Shock.mn1 m1 beta)) (shock_delta m1 beta gamma).

(** A valid configuration: free-stream Mach number and ratio of specific
    heats above 1, shock angle (in radians) between the Mach angle and a
    right angle.  There every divisor of the solver's formulas is non-zero
    and the radicand is positive. *)
Definition valid_configuration (m1 beta gamma : R) : Prop :=
  1 < m1 /\ 1 < gamma /\ asin (1 / m1) < beta < PI / 2.

(** A positive quantity that, as a float, is neither zero nor beyond the
    float range: it is at least the reciprocal of the largest float and at
    most the largest float. *)
Definition float_range (x : R) : Prop := / float_max <= x <= float_max.

(** An integer that numpy takes as an index: it fits a signed word of 64
    bits. *)
Definition fits_index (k : Z) : Prop := (- 2 ^ 63 <= k < 2 ^ 63)%Z.

(** [x] is [target] up to [tol]. *)
Definition approx (tol x target : R) : Prop := Rabs (x - target) <= tol.

(** A computation that only reads: whatever it answers, the state is the
    one it started in. *)
Definition reads_only {A} (c : py A) : Prop :=
  forall st r st', c st = (r, st') -> st' = st.

(** The state binds [setup] to an instance whose dictionary holds the three
    attributes. *)
Definition setup_is (st : state) (m1 beta gamma : R) : Prop :=
  exists l attrs,
    globals st !! "setup" = Some (VRef l) /\
    heap st !! l = Some (Instance attrs) /\
    attrs !! "m1" = Some m1 /\
    attrs !! "beta" = Some beta /\
    attrs !! "gamma" = Some gamma.

(** A derivative function that neither raises nor touches the state. *)
Definition pure_fn {V} (f : R -> V -> V) : R -> V -> py V :=
  fun x y => ret (f x y).

(** The Runge-Kutta step as the specification words it: the four slopes,
    then the pair of the next independent variable and the next state. *)
Definition rk4_spec_step {V} {S : StateSpace V} (f : R -> V -> V) (dx x : R) (y : V) : R * V :=
  let k1 := dx ⊙ f x y in
  let k2 := dx ⊙ f (x + dx / 2) (y ⊕ k1 ⊘ 2) in
  let k3 := dx ⊙ f (x + dx / 2) (y ⊕ k2 ⊘ 2) in
  let k4 := dx ⊙ f (x + dx) (y ⊕ k3) in
  (x + dx, y ⊕ (k1 ⊕ 2 ⊙ k2 ⊕ 2 ⊙ k3 ⊕ k4) ⊘ 6).

(** The derivative estimate as the specification words it: the step
    [h = sqrt(machine epsilon)] scaled by [max(1, |paramGuess|)], and the
    central quotient [(F(paramGuess+h) - F(paramGuess-h)) / (2h)]. *)
Definition spec_fd_step (paramGuess : R) : R :=
  sqrt float_eps * Rmax 1 (Rabs paramGuess).

Definition spec_central_difference (F : R -> R) (paramGuess : R) : R :=
  let h := spec_fd_step paramGuess in
  (F (paramGuess + h) - F (paramGuess - h)) / (2 * h).

(** The computation ends in an exception when run in [st]. *)
Definition raises {A} (c : py A) (st : state) : Prop :=
  exists e st', c st = (Raised e, st').

(** ** Vocabulary of the further properties *)

(** The heap locations the namespace of [st] reaches through one of the
    given names. *)
Definition named_by (names : list string) (st : state) (l : loc) : Prop :=
  exists n, n ∈ names /\ globals st !! n = Some (VRef l).

(** From [st] to [st'] no module name was rebound, and every object of
    [st] that is not reached through [names] is still in place. *)
Definition frame (names : list string) (st st' : state) : Prop :=
  globals st' = globals st /\
  forall l o, heap st !! l = Some o -> ~ named_by names st l -> heap st' !! l = Some o.

(** Whatever [c] answers from [st], it stays within that frame. *)
Definition keeps (names : list string) {A} (c : py A) (st : state) : Prop :=
  forall r st', c st = (r, st') -> frame names st st'.

(** The scratch state with the module-level name [gamma] bound to a float
    as well.  No cell creates this binding either; it is the least that
    lets the last assignment of [taylor_maccoll] evaluate its right-hand
    side. *)
Definition scratch_state_with_gamma (m1 beta gamma : R) (ob : list R) (g : R) : state :=
  State (<["gamma" := VFloat g]> (globals (scratch_state m1 beta gamma ob)))
        (heap (scratch_state m1 beta gamma ob)).

(** A polynomial slope of degree four in the independent variable, and its
    primitive: the test problem [y' = p(x)] for the integrator. *)
Definition quartic (a0 a1 a2 a3 a4 t : R) : R :=
  a0 + a1 * t + a2 * t ^ 2 + a3 * t ^ 3 + a4 * t ^ 4.

Definition quartic_primitive (a0 a1 a2 a3 a4 t : R) : R :=
  a0 * t + a1 * t ^ 2 / 2 + a2 * t ^ 3 / 3 + a3 * t ^ 4 / 4 + a4 * t ^ 5 / 5.

(** The entry that the index [k] selects in an array of [n] entries, for
    [-n <= k < n]: a negative index counts from the end. *)
Definition entry (data : list R) (k : Z) : R :=
  nth (Z.to_nat (k mod Z.of_nat (length data))) data 0.

(** * Properties *)

(** ** Running a sequence of statements *)

Lemma bind_returned {A B} (c : py A) (k : A -> py B) st a st' :
  c st = (Returned a, st') -> bind c k st = k a st'.
Proof. intros H. unfold bind. now rewrite H. Qed.

Lemma bind_raised {A B} (c : py A) (k : A -> py B) st e st' :
  c st = (Raised e, st') -> bind c k st = (Raised e, st').
Proof. intros H. unfold bind. now rewrite H. Qed.

Lemma reads_only_ret {A} (a : A) : reads_only (ret a).
Proof. intros st r st' H. unfold ret in H. congruence. Qed.

Lemma reads_only_raise {A} (e : exn) : reads_only (@raise A e).
Proof. intros st r st' H. unfold raise in H. congruence. Qed.

Lemma reads_only_bind {A B} (c : py A) (k : A -> py B) :
  reads_only c -> (forall a, reads_only (k a)) -> reads_only (bind c k).
Proof.
  intros Hc Hk st r st' H. unfold bind in H.
  destruct (c st) as [[a|e] st1] eqn:E.
  - apply Hc in E. subst st1. now apply Hk in H.
  - apply Hc in E. congruence.
Qed.

Lemma reads_only_load_global name : reads_only (load_global name).
Proof.
  intros st r st' H. unfold load_global in H.
  destruct (globals st !! name); congruence.
Qed.

Lemma reads_only_getattr v attr : reads_only (getattr v attr).
Proof.
  intros st r st' H. unfold getattr in H.
  destruct v as [x|l]; [congruence|].
  destruct (heap st !! l) as [[attrs|data]|]; try congruence.
  destruct (attrs !! attr); congruence.
Qed.

Lemma reads_only_getitem v k : reads_only (getitem v k).
Proof.
  intros st r st' H. unfold getitem in H.
  destruct v as [x|l]; [congruence|].
  destruct (heap st !! l) as [[attrs|data]|]; try congruence.
  destruct (index_of (length data) k) as [i|]; [|congruence].
  destruct (data !! i); congruence.
Qed.

Lemma reads_only_setup_attr attr : reads_only (setup_attr attr).
Proof.
  unfold setup_attr. apply reads_only_bind.
  - apply reads_only_load_global.
  - intros v. apply reads_only_getattr.
Qed.

Lemma reads_only_load_float name : reads_only (load_float name).
Proof.
  unfold load_float. apply reads_only_bind.
  - apply reads_only_load_global.
  - intros [x|l]; [apply reads_only_ret | apply reads_only_raise].
Qed.

Lemma reads_only_float_divisor b : reads_only (float_divisor b).
Proof.
  unfold float_divisor. destruct (Req_EM_T b 0);
    [apply reads_only_raise | apply reads_only_ret].
Qed.

(** ** Reading the module's [setup] *)

Lemma setup_attr_m1 st m1 beta gamma :
  setup_is st m1 beta gamma -> setup_attr "m1" st = (Returned m1, st).
Proof.
  intros (l & attrs & Hg & Hh & Hm & _ & _).
  unfold setup_attr, bind, load_global, getattr. now rewrite Hg, Hh, Hm.
Qed.

Lemma setup_attr_beta st m1 beta gamma :
  setup_is st m1 beta gamma -> setup_attr "beta" st = (Returned beta, st).
Proof.
  intros (l & attrs & Hg & Hh & _ & Hb & _).
  unfold setup_attr, bind, load_global, getattr. now rewrite Hg, Hh, Hb.
Qed.

Lemma setup_attr_gamma st m1 beta gamma :
  setup_is st m1 beta gamma -> setup_attr "gamma" st = (Returned gamma, st).
Proof.
  intros (l & attrs & Hg & Hh & _ & _ & Hc).
  unfold setup_attr, bind, load_global, getattr. now rewrite Hg, Hh, Hc.
Qed.

Lemma setup_attr_unbound st attr :
  globals st !! "setup" = None ->
  setup_attr attr st = (Raised (NameError "setup"), st).
Proof.
  intros H. unfold setup_attr, bind, load_global. now rewrite H.
Qed.

Lemma float_divisor_nonzero b st : b <> 0 -> float_divisor b st = (Returned tt, st).
Proof. intros H. unfold float_divisor. now destruct (Req_EM_T b 0). Qed.

Lemma float_square_in_range x st :
  x ^ 2 <= float_max -> float_square x st = (Returned tt, st).
Proof. intros H. unfold float_square. now destruct (Rle_dec (x ^ 2) float_max). Qed.

Lemma float_square_beyond x st :
  float_max < x ^ 2 -> float_square x st = (Raised OverflowError, st).
Proof.
  intros H. unfold float_square.
  destruct (Rle_dec (x ^ 2) float_max); [exfalso; lra | reflexivity].
Qed.

Lemma reads_only_float_square x : reads_only (float_square x).
Proof.
  unfold float_square. destruct (Rle_dec (x ^ 2) float_max);
    [apply reads_only_ret | apply reads_only_raise].
Qed.

Lemma float_max_large : 2 ^ 1023 <= float_max.
Proof.
  unfold float_max.
  assert (H52 : 0 < / 2 ^ 52 <= 1).
  { split.
    - apply Rinv_0_lt_compat, pow_lt. lra.
    - assert (H1 : 1 <= 2 ^ 52) by (apply pow_R1_Rle; lra).
      assert (H2 := Rinv_le_contravar 1 (2 ^ 52) Rlt_0_1 H1).
      rewrite Rinv_1 in H2. exact H2. }
  assert (Hp : 0 < 2 ^ 1023) by (apply pow_lt; lra).
  nra.
Qed.

Lemma small_square_in_range x : x ^ 2 <= 16 -> x ^ 2 <= float_max.
Proof.
  intros H. apply Rle_trans with (2 ^ 1023); [|apply float_max_large].
  replace 1023%nat with (4 + 1019)%nat by reflexivity.
  rewrite pow_add.
  assert (H1 : 1 <= 2 ^ 1019) by (apply pow_R1_Rle; lra).
  replace (2 ^ 4) with 16 by ring. nra.
Qed.

Lemma module_state_setup m1 beta gamma ob :
  setup_is (module_state m1 beta gamma ob) m1 (beta * PI / 180) gamma.
Proof.
  exists 0%nat, (InitialConditions m1 beta gamma).
  repeat split; reflexivity.
Qed.

Lemma scratch_state_setup m1 beta gamma ob :
  setup_is (scratch_state m1 beta gamma ob) m1 (beta * PI / 180) gamma.
Proof.
  exists 0%nat, (InitialConditions m1 beta gamma).
  repeat split; reflexivity.
Qed.

(** ** The solver stops at its fourth assignment *)

(** In a state that binds [setup] as cell 4 does and binds no name
    [tem2_tesetup], the call raises [NameError] at the fourth assignment,
    before [mn2], [delta] and [m2] are computed and before [ob] is touched. *)
Lemma oblique_shock_wave_name_error st m1 beta gamma :
  setup_is st m1 beta gamma ->
  gamma + 1 <> 0 ->
  globals st !! "tem2_tesetup" = None ->
  oblique_shock_wave st = (Raised (NameError "tem2_tesetup"), st).
Proof.
  intros Hs Hg Hn. unfold oblique_shock_wave.
  rewrite (bind_returned _ _ _ _ _ (setup_attr_m1 _ _ _ _ Hs)).
  rewrite (bind_returned _ _ _ _ _ (setup_attr_beta _ _ _ _ Hs)).
  rewrite (bind_returned _ _ _ _ _ (setup_attr_gamma _ _ _ _ Hs)).
  rewrite (bind_returned _ _ _ _ _ (setup_attr_gamma _ _ _ _ Hs)).
  rewrite (bind_returned _ _ _ _ _ (float_divisor_nonzero _ _ Hg)).
  apply bind_raised. unfold load_global. now rewrite Hn.
Qed.

Lemma oblique_shock_wave_module_state m1 beta gamma ob :
  gamma + 1 <> 0 ->
  oblique_shock_wave (module_state m1 beta gamma ob)
  = (Raised (NameError "tem2_tesetup"), module_state m1 beta gamma ob).
Proof.
  intros Hg. eapply oblique_shock_wave_name_error.
  - apply module_state_setup.
  - exact Hg.
  - reflexivity.
Qed.

Lemma oblique_shock_wave_setup_unbound st :
  globals st !! "setup" = None ->
  oblique_shock_wave st = (Raised (NameError "setup"), st).
Proof.
  intros H. unfold oblique_shock_wave.
  apply bind_raised. now apply setup_attr_unbound.
Qed.

(** ** The solver's result buffer *)

Lemma index_of_front n k :
  (0 <= k < Z.of_nat n)%Z -> index_of n k = Some (Z.to_nat k).
Proof.
  intros [H0 H1]. unfold index_of.
  apply Z.leb_le in H0. apply Z.ltb_lt in H1. now rewrite H0, H1.
Qed.

Lemma index_of_beyond n k : (Z.of_nat n <= k)%Z -> index_of n k = None.
Proof.
  intros H. unfold index_of.
  assert (H1 : (k <? Z.of_nat n)%Z = false) by (apply Z.ltb_ge; lia).
  assert (H2 : (k <? 0)%Z = false) by (apply Z.ltb_ge; lia).
  now rewrite H1, H2, !andb_false_r.
Qed.

Lemma setitem_array st l data k i x :
  heap st !! l = Some (NDArray data) ->
  index_of (length data) k = Some i ->
  setitem (VRef l) k x st
  = (Returned tt, set_heap (<[l := NDArray (<[i := x]> data)]> (heap st)) st).
Proof. intros Hh Hi. unfold setitem. now rewrite Hh, Hi. Qed.

Lemma setitem_array_beyond st l data k x :
  heap st !! l = Some (NDArray data) ->
  (Z.of_nat (length data) <= k)%Z ->
  setitem (VRef l) k x st = (Raised IndexError, st).
Proof.
  intros Hh Hk. unfold setitem. now rewrite Hh, (index_of_beyond _ _ Hk).
Qed.

Lemma getitem_array st l data k i x :
  heap st !! l = Some (NDArray data) ->
  index_of (length data) k = Some i ->
  data !! i = Some x ->
  getitem (VRef l) k st = (Returned x, st).
Proof. intros Hh Hi Hx. unfold getitem. now rewrite Hh, Hi, Hx. Qed.

(** The closing statements write [delta] and [m2] into the array that the
    global [ob] names and return a reference to that very object. *)
Lemma shock_store_in_place st lo data delta m2 :
  globals st !! "ob" = Some (VRef lo) ->
  heap st !! lo = Some (NDArray data) ->
  length data = 2%nat ->
  shock_store delta m2 st
  = (Returned (VRef lo), set_heap (<[lo := NDArray [delta; m2]]> (heap st)) st).
Proof.
  intros Hg Hh Hlen.
  destruct data as [|a [|b [|c data]]]; try discriminate Hlen.
  unfold shock_store, bind, load_global, setitem, set_heap.
  rewrite Hg, Hh. cbn [length].
  change (index_of 2 0) with (Some 0%nat). cbn [globals heap].
  rewrite Hg. cbn [globals heap]. rewrite lookup_insert_eq.
  change (index_of _ 1) with (Some 1%nat). cbn [globals heap].
  rewrite Hg, insert_insert_eq. reflexivity.
Qed.

(** ** Where the fourth assignment can execute *)

Lemma setattr_instance st l attrs attr x :
  heap st !! l = Some (Instance attrs) ->
  setattr (VRef l) attr x st
  = (Returned tt, set_heap (<[l := Instance (<[attr := x]> attrs)]> (heap st)) st).
Proof. intros H. unfold setattr. now rewrite H. Qed.

Lemma setup_is_other_object st m1 beta gamma lt o :
  setup_is st m1 beta gamma ->
  globals st !! "setup" <> Some (VRef lt) ->
  setup_is (set_heap (<[lt := o]> (heap st)) st) m1 beta gamma.
Proof.
  intros (l & attrs & Hg & Hh & Hm & Hb & Hc) Hne.
  exists l, attrs. cbn [set_heap globals heap].
  assert (lt <> l) by congruence.
  rewrite lookup_insert_ne by assumption. now repeat split.
Qed.

(** If [tem2_tesetup] names some instance other than [setup], the call
    runs to its end: it stores the temperature ratio on that instance,
    writes [delta] and [m2] into the module's array and returns that
    array. *)
Lemma oblique_shock_wave_returns st m1 beta gamma lt attrs_t lo data :
  setup_is st m1 beta gamma ->
  gamma + 1 <> 0 ->
  m1 ^ 2 <= float_max ->
  globals st !! "tem2_tesetup" = Some (VRef lt) ->
  heap st !! lt = Some (Instance attrs_t) ->
  globals st !! "setup" <> Some (VRef lt) ->
  globals st !! "ob" = Some (VRef lo) ->
  heap st !! lo = Some (NDArray data) ->
  length data = 2%nat ->
  oblique_shock_wave st
  = (Returned (VRef lo),
     set_heap
       (<[lo := NDArray [shock_delta m1 beta gamma; shock_m2 m1 beta gamma]]>
          (<[lt := Instance
                     (<["m1" := Shock.pre2_pre1 gamma (Shock.mn1 m1 beta)
                                / Shock.rho2_rho1 gamma (Shock.mn1 m1 beta)]> attrs_t)]>
             (heap st)))
       st).
Proof.
  intros Hs Hg Hm Ht Hht Hne Hob Hho Hlen. unfold oblique_shock_wave.
  rewrite (bind_returned _ _ _ _ _ (setup_attr_m1 _ _ _ _ Hs)).
  rewrite (bind_returned _ _ _ _ _ (setup_attr_beta _ _ _ _ Hs)).
  rewrite (bind_returned _ _ _ _ _ (setup_attr_gamma _ _ _ _ Hs)).
  rewrite (bind_returned _ _ _ _ _ (setup_attr_gamma _ _ _ _ Hs)).
  rewrite (bind_returned _ _ _ _ _ (float_divisor_nonzero _ _ Hg)).
  erewrite bind_returned; cycle 1.
  { unfold load_global. rewrite Ht. reflexivity. }
  erewrite bind_returned; cycle 1.
  { apply setattr_instance. exact Hht. }
  match goal with |- context [set_heap ?h st] => set (st1 := set_heap h st) end.
  assert (Hs1 : setup_is st1 m1 beta gamma) by now apply setup_is_other_object.
  rewrite (bind_returned _ _ _ _ _ (setup_attr_gamma _ _ _ _ Hs1)).
  rewrite (bind_returned _ _ _ _ _ (setup_attr_beta _ _ _ _ Hs1)).
  rewrite (bind_returned _ _ _ _ _ (setup_attr_m1 _ _ _ _ Hs1)).
  rewrite (bind_returned _ _ _ _ _ (float_square_in_range _ _ Hm)).
  rewrite (bind_returned _ _ _ _ _ (setup_attr_gamma _ _ _ _ Hs1)).
  rewrite (bind_returned _ _ _ _ _ (setup_attr_beta _ _ _ _ Hs1)).
  assert (lt <> lo) by congruence.
  rewrite (shock_store_in_place st1 lo data).
  - reflexivity.
  - exact Hob.
  - unfold st1. cbn [set_heap heap]. now rewrite lookup_insert_ne.
  - exact Hlen.
Qed.

Lemma scratch_state_returns m1 beta gamma ob :
  gamma + 1 <> 0 ->
  m1 ^ 2 <= float_max ->
  length ob = 2%nat ->
  exists st',
    oblique_shock_wave (scratch_state m1 beta gamma ob) = (Returned (VRef 1%nat), st') /\
    heap st' !! 1%nat
    = Some (NDArray [shock_delta m1 (beta * PI / 180) gamma;
                     shock_m2 m1 (beta * PI / 180) gamma]).
Proof.
  intros Hg Hm Hlen. eexists. split.
  - eapply oblique_shock_wave_returns with (lt := 2%nat) (lo := 1%nat).
    + apply scratch_state_setup.
    + exact Hg.
    + exact Hm.
    + reflexivity.
    + reflexivity.
    + discriminate.
    + reflexivity.
    + reflexivity.
    + exact Hlen.
  - cbn [set_heap heap]. apply lookup_insert_eq.
Qed.

(** ** The field evaluator never returns *)

Lemma raises_bind_raised {A B} (c : py A) (k : A -> py B) st :
  raises c st -> raises (bind c k) st.
Proof.
  intros (e & st' & H). exists e, st'. now apply bind_raised.
Qed.

Lemma raises_bind_reads {A B} (c : py A) (k : A -> py B) st :
  reads_only c -> (forall a, raises (k a) st) -> raises (bind c k) st.
Proof.
  intros Hc Hk. unfold raises, bind.
  destruct (c st) as [[a|e] st1] eqn:E.
  - apply Hc in E. subst st1. apply Hk.
  - now exists e, st1.
Qed.

Lemma raises_bind_returned {A B} (c : py A) (k : A -> py B) st a st1 :
  c st = (Returned a, st1) -> raises (k a) st1 -> raises (bind c k) st.
Proof.
  intros Hc (e & st' & Hk). exists e, st'.
  now rewrite (bind_returned _ _ _ _ _ Hc).
Qed.

(** After [tm = np.zeros(2)] every path through the rest of the body ends
    in an exception: a failing read, or at the latest the store into
    [tm[2]], which is out of bounds for an array of two entries. *)
Lemma taylor_maccoll_tail_raises st l ob_array delta m2 :
  heap st !! l = Some (NDArray [0; 0]) ->
  raises
    (gamma_s <- setup_attr "gamma" ;;
     float_divisor (gamma_s - 1) ;;;
     let v_nondim := Field.v_nondim gamma_s m2 in
     beta <- setup_attr "beta" ;;
     let v_nondim_r := Field.v_nondim_r beta delta v_nondim in
     beta <- setup_attr "beta" ;;
     let v_nondim_theta := Field.v_nondim_theta beta delta v_nondim_r in
     ob_0 <- getitem ob_array 0 ;;
     setitem (VRef l) 0 ob_0 ;;;
     setitem (VRef l) 1 v_nondim_theta ;;;
     gamma <- load_float "gamma" ;;
     setitem (VRef l) 2 (Field.tm2 gamma delta v_nondim v_nondim_r v_nondim_theta) ;;;
     ret (VRef l)) st.
Proof.
  intros Hl.
  apply raises_bind_reads; [apply reads_only_setup_attr | intros gamma_s].
  apply raises_bind_reads; [apply reads_only_float_divisor | intros _].
  apply raises_bind_reads; [apply reads_only_setup_attr | intros beta].
  apply raises_bind_reads; [apply reads_only_setup_attr | intros beta'].
  apply raises_bind_reads; [apply reads_only_getitem | intros ob_0].
  eapply raises_bind_returned.
  { eapply setitem_array; [exact Hl | reflexivity]. }
  eapply raises_bind_returned.
  { eapply setitem_array; [cbn [set_heap heap]; apply lookup_insert_eq | reflexivity]. }
  match goal with |- raises _ ?s => set (st2 := s) end.
  apply raises_bind_reads; [apply reads_only_load_float | intros gamma].
  apply raises_bind_raised.
  exists IndexError, st2.
  eapply setitem_array_beyond.
  - unfold st2. cbn [set_heap heap]. apply lookup_insert_eq.
  - rewrite !length_insert. cbn [length]. lia.
Qed.

Lemma taylor_maccoll_raises delta m2 st : raises (taylor_maccoll delta m2) st.
Proof.
  unfold taylor_maccoll.
  destruct (oblique_shock_wave st) as [[ob_array|e] st1] eqn:E.
  - eapply raises_bind_returned; [exact E|].
    eapply raises_bind_returned; [reflexivity|].
    apply taylor_maccoll_tail_raises.
    cbn [set_heap heap]. apply lookup_insert_eq.
  - exists e, st1. now apply bind_raised.
Qed.

Lemma taylor_maccoll_name_error delta m2 st m1 beta gamma :
  setup_is st m1 beta gamma ->
  gamma + 1 <> 0 ->
  globals st !! "tem2_tesetup" = None ->
  taylor_maccoll delta m2 st = (Raised (NameError "tem2_tesetup"), st).
Proof.
  intros Hs Hg Hn. unfold taylor_maccoll.
  apply bind_raised. now apply oblique_shock_wave_name_error with m1 beta gamma.
Qed.

(** ** Bounds on the elementary functions *)

Lemma sqrt3_bounds : 1.732 < sqrt 3 < 1.7321.
Proof.
  split.
  - replace 1.732 with (sqrt (1.732 * 1.732)) by (apply sqrt_square; lra).
    apply sqrt_lt_1_alt. lra.
  - replace 1.7321 with (sqrt (1.7321 * 1.7321)) by (apply sqrt_square; lra).
    apply sqrt_lt_1_alt. lra.
Qed.

(** Taylor bounds of sine and cosine on [[0, 1]], from the alternating
    partial sums of the library. *)
Lemma sin_cos_bounds a :
  0 <= a -> a <= 1 ->
  a - a ^ 3 / 6 <= sin a <= a - a ^ 3 / 6 + a ^ 5 / 120 /\
  1 - a ^ 2 / 2 <= cos a <= 1 - a ^ 2 / 2 + a ^ 4 / 24.
Proof.
  intros H0 H1.
  assert (Hpi := PI2_1).
  destruct (sin_bound a 0) as [Hsl Hsu]; [lra | lra |].
  destruct (cos_bound a 0) as [Hcl Hcu]; [lra | lra |].
  unfold sin_approx, sin_term in Hsl, Hsu.
  unfold cos_approx, cos_term in Hcl, Hcu.
  cbn in Hsl, Hsu, Hcl, Hcu.
  split; split; lra.
Qed.

(** Bracketing [atan t] by an angle [a] in [(0, 1]]: compare [t] with
    bounds of [tan a]. *)
Lemma atan_above a t :
  0 < a -> a <= 1 ->
  a - a ^ 3 / 6 + a ^ 5 / 120 < t * (1 - a ^ 2 / 2) ->
  a < atan t.
Proof.
  intros H0 H1 Ht.
  assert (Hpi := PI2_1).
  destruct (sin_cos_bounds a ltac:(lra) H1) as [[_ Hs] [Hc _]].
  assert (Hsl := sin_gt_0 a H0 ltac:(lra)).
  assert (Hpos : 0 < 1 - a ^ 2 / 2) by nra.
  assert (Htan : tan a < t).
  { unfold tan. apply Rmult_lt_reg_r with (cos a); [lra|].
    unfold Rdiv. rewrite Rmult_assoc, Rinv_l by lra.
    assert (0 < t) by nra. nra. }
  rewrite <- (atan_tan a) by lra.
  now apply atan_increasing.
Qed.

Lemma atan_below a t :
  0 < a -> a <= 1 -> 0 <= t ->
  t * (1 - a ^ 2 / 2 + a ^ 4 / 24) < a - a ^ 3 / 6 ->
  atan t < a.
Proof.
  intros H0 H1 H0t Ht.
  assert (Hpi := PI2_1).
  destruct (sin_cos_bounds a ltac:(lra) H1) as [[Hs _] [_ Hc]].
  assert (Hc0 : 0 < cos a) by (apply cos_gt_0; lra).
  assert (Htan : t < tan a).
  { unfold tan. apply Rmult_lt_reg_r with (cos a); [lra|].
    unfold Rdiv. rewrite Rmult_assoc, Rinv_l by lra. nra. }
  rewrite <- (atan_tan a) by lra.
  now apply atan_increasing.
Qed.

(** ** The notebook's configuration: Mach 3, shock at 30 degrees *)

Lemma beta_30_degrees : 30 * PI / 180 = PI / 6.
Proof. lra. Qed.

Lemma scenario_mn1 : Shock.mn1 3.0 (30 * PI / 180) = 3 / 2.
Proof. unfold Shock.mn1. rewrite beta_30_degrees, sin_PI6. lra. Qed.

Lemma scenario_tangent :
  2 * 1 / tan (PI / 6) * ((3 / 2) ^ 2 - 1) / (3.0 ^ 2 * (1.4 + cos (2 * (PI / 6)) + 2))
  = 2.5 / 35.1 * sqrt 3.
Proof.
  replace (2 * (PI / 6)) with (PI / 3) by lra.
  rewrite tan_PI6, cos_PI3.
  assert (H := sqrt3_bounds). unfold Q2R; cbn [QArith_base.Qnum QArith_base.Qden]. field. lra.
Qed.

Lemma scenario_delta_eq :
  Shock.delta 3.0 (30 * PI / 180) 1.4 (Shock.mn1 3.0 (30 * PI / 180))
  = atan (2.5 / 35.1 * sqrt 3).
Proof.
  rewrite scenario_mn1. unfold Shock.delta.
  rewrite beta_30_degrees, scenario_tangent. reflexivity.
Qed.

Lemma scenario_delta_bounds :
  0.1225 < atan (2.5 / 35.1 * sqrt 3) < 0.1235.
Proof.
  assert (H := sqrt3_bounds). split.
  - apply atan_above; nra.
  - apply atan_below; nra.
Qed.

Lemma scenario_mn2 : Shock.mn2 1.4 (3 / 2) = sqrt (1.45 / 2.95).
Proof. unfold Shock.mn2. f_equal. lra. Qed.

Lemma scenario_m2_eq :
  Shock.m2 (30 * PI / 180)
    (Shock.mn2 1.4 (Shock.mn1 3.0 (30 * PI / 180)))
    (Shock.delta 3.0 (30 * PI / 180) 1.4 (Shock.mn1 3.0 (30 * PI / 180)))
  = sqrt (1.45 / 2.95) * sqrt (1 + (2.5 / 35.1 * sqrt 3)²) / (13.8 / 35.1).
Proof.
  rewrite scenario_delta_eq, scenario_mn1, scenario_mn2. unfold Shock.m2.
  rewrite beta_30_degrees, sin_minus, sin_PI6, cos_PI6, sin_atan, cos_atan.
  assert (H3 := sqrt3_bounds).
  assert (Hsq : sqrt 3 * sqrt 3 = 3) by (apply sqrt_sqrt; lra).
  assert (Hpos : 0 < sqrt (1 + (2.5 / 35.1 * sqrt 3)²)).
  { apply sqrt_lt_R0. unfold Rsqr. nra. }
  set (r := sqrt (1 + (2.5 / 35.1 * sqrt 3)²)) in *.
  replace (1 / 2 * (1 / r) - sqrt 3 / 2 * (2.5 / 35.1 * sqrt 3 / r))
    with (13.8 / 35.1 / r).
  - unfold Q2R; cbn [QArith_base.Qnum QArith_base.Qden]. field. lra.
  - replace (sqrt 3 / 2 * (2.5 / 35.1 * sqrt 3 / r))
      with (2.5 / 35.1 / 2 * (sqrt 3 * sqrt 3) / r)
      by (unfold Q2R; cbn [QArith_base.Qnum QArith_base.Qden]; field; lra).
    rewrite Hsq. unfold Q2R; cbn [QArith_base.Qnum QArith_base.Qden]. field. lra.
Qed.

Lemma scenario_m2_bounds :
  1.7965 < sqrt (1.45 / 2.95) * sqrt (1 + (2.5 / 35.1 * sqrt 3)²) / (13.8 / 35.1) < 1.7975.
Proof.
  assert (Hsq : sqrt 3 * sqrt 3 = 3) by (apply sqrt_sqrt; lra).
  rewrite <- sqrt_mult by (unfold Rsqr; nra).
  replace ((2.5 / 35.1 * sqrt 3)²) with (2.5 / 35.1 * (2.5 / 35.1) * (sqrt 3 * sqrt 3))
    by (unfold Rsqr; ring).
  rewrite Hsq.
  set (q := 1.45 / 2.95 * (1 + 2.5 / 35.1 * (2.5 / 35.1) * 3)).
  assert (Hlo : 1.7965 * (13.8 / 35.1) < sqrt q).
  { replace (1.7965 * (13.8 / 35.1))
      with (sqrt ((1.7965 * (13.8 / 35.1)) * (1.7965 * (13.8 / 35.1))))
      by (apply sqrt_square; lra).
    apply sqrt_lt_1_alt. unfold q. lra. }
  assert (Hhi : sqrt q < 1.7975 * (13.8 / 35.1)).
  { replace (1.7975 * (13.8 / 35.1))
      with (sqrt ((1.7975 * (13.8 / 35.1)) * (1.7975 * (13.8 / 35.1))))
      by (apply sqrt_square; lra).
    apply sqrt_lt_1_alt. unfold q. lra. }
  set (d := 13.8 / 35.1) in *.
  assert (Hd : 0 < d) by (unfold d; lra).
  split.
  - apply Rmult_lt_reg_r with d; [lra|].
    replace (sqrt q / d * d) with (sqrt q) by (field; lra). lra.
  - apply Rmult_lt_reg_r with d; [lra|].
    replace (sqrt q / d * d) with (sqrt q) by (field; lra). lra.
Qed.

(** ** The shock relations are compressive *)

(** The polynomial inequality behind [m2 < m1], in [N = mn1^2],
    [g = gamma] and [u = cos^2 beta]: in the excesses [N - 1] and [g - 1]
    the difference of the two sides has no negative coefficient. *)
Lemma compressive_poly (N g u : R) :
  1 < N -> 1 < g -> 0 <= u ->
  (2 + (g - 1) * N) * (N ^ 2 * (g + 1 + 2 * u) ^ 2 + 4 * u * (1 - u) * (N - 1) ^ 2)
  < (2 * g * N - (g - 1)) * N * (N * (g + 1) + 2 * u) ^ 2.
Proof.
  intros HN Hg Hu.
  apply Rlt_0_minus.
  set (a := N - 1). set (b := g - 1).
  assert (Ha : 0 < a) by (unfold a; lra).
  assert (Hb : 0 < b) by (unfold b; lra).
  replace N with (1 + a) by (unfold a; ring).
  replace g with (1 + b) by (unfold b; ring).
  match goal with |- 0 < ?e =>
    replace e with (
      16 * a + 16 * a * u + 24 * a * b + 16 * a * b * u + 12 * a * b ^ 2 + 4
      * a * b ^ 2 * u + 2 * a * b ^ 3 + 40 * a ^ 2 + 24 * a ^ 2 * u + 8 * a
      ^ 2 * u ^ 2 + 64 * a ^ 2 * b + 28 * a ^ 2 * b * u + 34 * a ^ 2 * b ^ 2
      + 8 * a ^ 2 * b ^ 2 * u + 6 * a ^ 2 * b ^ 3 + 32 * a ^ 3 + 16 * a ^ 3
      * u + 56 * a ^ 3 * b + 12 * a ^ 3 * b * u + 32 * a ^ 3 * b ^ 2 + 4 * a
      ^ 3 * b ^ 2 * u + 6 * a ^ 3 * b ^ 3 + 8 * a ^ 4 + 16 * a ^ 4 * b + 10
      * a ^ 4 * b ^ 2 + 2 * a ^ 4 * b ^ 3) by ring end.
  assert (Hpos : forall x y, 0 <= x -> 0 <= y -> 0 <= x * y)
    by (intros; apply Rmult_le_pos; assumption).
  assert (Hpow : forall x n, 0 <= x -> 0 <= x ^ n)
    by (intros; apply pow_le; assumption).
  assert (Ha' : 0 <= a) by lra. assert (Hb' : 0 <= b) by lra.
  repeat (apply Rplus_lt_le_0_compat;
          [| repeat (first [apply Hpos | apply Hpow | lra])]).
  lra.
Qed.

(** The same in the sine and cosine of the shock angle: the tangent of the
    deflection is positive, the sine of [beta - delta] is positive, and the
    post-shock Mach number is below the free-stream one. *)
Lemma compressive_algebra (M s c g : R) :
  1 < M -> 1 < g -> 0 < s -> 0 < c -> s * s + c * c = 1 -> 1 < M * s ->
  let n := M * s in
  let t := 2 * 1 / (s / c) * (n ^ 2 - 1) / (M ^ 2 * (g + (1 - 2 * s * s) + 2)) in
  0 < t /\
  0 < s * (1 / sqrt (1 + t²)) - c * (t / sqrt (1 + t²)) /\
  sqrt ((1.0 + 0.5 * (g - 1) * n ^ 2) / (g * n ^ 2 - 0.5 * (g - 1)))
  / (s * (1 / sqrt (1 + t²)) - c * (t / sqrt (1 + t²))) < M.
Proof.
  intros HM Hg Hs Hc Hsc Hn n t.
  assert (H10 : 1.0 = 1) by lra. assert (H05 : 0.5 = 1 / 2) by lra.
  rewrite H10, !H05.
  assert (Hn1 : 1 < n) by exact Hn.
  assert (HN : 1 < n ^ 2) by nra.
  set (A := g + (1 - 2 * s * s) + 2) in *.
  assert (HA : 2 < A) by (unfold A; nra).
  set (D := M ^ 2 * A) in *.
  assert (HD : 0 < D) by (unfold D; nra).
  assert (HsD : 0 < s * D) by nra.
  set (T := 2 * c * (n ^ 2 - 1)).
  assert (HT : 0 < T) by (unfold T; nra).
  assert (Ht : t = T / (s * D)).
  { unfold t, T. field. lra. }
  assert (Htpos : 0 < t).
  { rewrite Ht. apply Rdiv_lt_0_compat; lra. }
  set (B := n ^ 2 * (g + 1) + 2 * (c * c)).
  assert (HB : 0 < B) by (unfold B; nra).
  set (W := s - c * t).
  assert (HW : W = B / (s * D)).
  { unfold W. rewrite Ht. 
    apply Rmult_eq_reg_r with (s * D); [|lra].
    unfold Rdiv at 2. rewrite Rmult_assoc, Rinv_l by lra.
    replace ((s - c * (T / (s * D))) * (s * D)) with (s * s * D - c * T) by (field; lra).
    unfold D, A, T, B, n. nra. }
  assert (HWpos : 0 < W).
  { rewrite HW. apply Rdiv_lt_0_compat; lra. }
  assert (Hr : 0 < sqrt (1 + t²)).
  { apply sqrt_lt_R0. unfold Rsqr. nra. }
  assert (Hr2 : sqrt (1 + t²) * sqrt (1 + t²) = 1 + t * t).
  { apply sqrt_sqrt. unfold Rsqr. nra. }
  set (r := sqrt (1 + t²)) in *.
  replace (s * (1 / r) - c * (t / r)) with (W / r) by (unfold W; field; lra).
  assert (HWr : 0 < W / r) by (apply Rdiv_lt_0_compat; lra).
  split; [exact Htpos | split; [exact HWr|]].
  set (P := 1 + 1 / 2 * (g - 1) * n ^ 2).
  set (Q := g * n ^ 2 - 1 / 2 * (g - 1)).
  assert (HP : 0 < P) by (unfold P; nra).
  assert (HQ : 0 < Q) by (unfold Q; nra).
  assert (HPQ : 0 < P / Q) by (apply Rdiv_lt_0_compat; lra).
  assert (Hm : 0 < sqrt (P / Q)) by (apply sqrt_lt_R0; lra).
  assert (Hm2 : sqrt (P / Q) * sqrt (P / Q) = P / Q) by (apply sqrt_sqrt; lra).
  set (mn2 := sqrt (P / Q)) in *.
  apply Rmult_lt_reg_r with (W / r); [exact HWr|].
  replace (mn2 / (W / r) * (W / r)) with mn2 by (field; lra).
  apply Rmult_lt_reg_r with r; [exact Hr|].
  replace (M * (W / r) * r) with (M * W) by (field; lra).
  apply Rsqr_incrst_0; [| nra | nra].
  unfold Rsqr.
  replace (mn2 * r * (mn2 * r)) with (P / Q * (1 + t * t))
    by (rewrite <- Hm2, <- Hr2; ring).
  rewrite HW, Ht.
  assert (Hscale : 0 < Q * (s * D) ^ 2 * (s * s)).
  { assert (0 < (s * D) ^ 2) by (apply pow_lt; lra).
    repeat apply Rmult_lt_0_compat; lra. }
  apply Rmult_lt_reg_r with (Q * (s * D) ^ 2 * (s * s)); [exact Hscale|].
  replace (P / Q * (1 + T / (s * D) * (T / (s * D))) * (Q * (s * D) ^ 2 * (s * s)))
    with (P * ((s * s * D) ^ 2 + s * s * T ^ 2)) by (field; lra).
  replace (M * (B / (s * D)) * (M * (B / (s * D))) * (Q * (s * D) ^ 2 * (s * s)))
    with (Q * (M * s) ^ 2 * B ^ 2) by (field; lra).
  assert (Hu : 0 <= c * c) by nra.
  assert (Hpoly := compressive_poly (n ^ 2) g (c * c) HN Hg Hu).
  replace (1 - c * c) with (s * s) in Hpoly by lra.
  replace (g + 1 + 2 * (c * c)) with A in Hpoly by (unfold A; lra).
  fold B in Hpoly.
  replace (s * s * D) with (n ^ 2 * A) by (unfold D, n; ring).
  fold n. unfold P, Q, T.
  nra.
Qed.

(** A shock angle above the Mach angle makes the normal Mach number exceed 1. *)
Lemma above_mach_angle m1 beta :
  1 < m1 -> asin (1 / m1) < beta < PI / 2 -> 0 < beta /\ 1 < Shock.mn1 m1 beta.
Proof.
  intros Hm [Hlo Hhi].
  assert (Hinv : 0 < 1 / m1 < 1).
  { split.
    - apply Rdiv_lt_0_compat; lra.
    - apply Rmult_lt_reg_r with m1; [lra|].
      unfold Rdiv. rewrite Rmult_assoc, Rinv_l by lra. lra. }
  assert (Hb := asin_bound (1 / m1)).
  assert (Hasin0 : 0 < asin (1 / m1)).
  { destruct (Rlt_le_dec 0 (asin (1 / m1))) as [H|H]; [exact H|].
    assert (Hpi := PI2_RGT_0).
    assert (Hle : sin (asin (1 / m1)) <= sin 0) by (apply sin_incr_1; lra).
    rewrite sin_asin, sin_0 in Hle by lra. lra. }
  split; [lra|].
  assert (Hsin : 1 / m1 < sin beta).
  { rewrite <- (sin_asin (1 / m1)) by lra.
    apply sin_increasing_1; lra. }
  unfold Shock.mn1.
  apply Rmult_lt_compat_l with (r := m1) in Hsin; [|lra].
  replace (m1 * (1 / m1)) with 1 in Hsin by (field; lra).
  exact Hsin.
Qed.

(** For a valid configuration the solver's formulas give a positive
    deflection angle and a post-shock Mach number below the free-stream
    one. *)
Lemma shock_formulas_compressive m1 beta gamma :
  1 < m1 -> 1 < gamma -> asin (1 / m1) < beta < PI / 2 ->
  0 < shock_delta m1 beta gamma /\ shock_m2 m1 beta gamma < m1.
Proof.
  intros Hm Hg Hbeta.
  destruct (above_mach_angle m1 beta Hm Hbeta) as [Hb0 Hn].
  destruct Hbeta as [_ Hb1].
  assert (Hpi := PI2_Rlt_PI).
  assert (Hs : 0 < sin beta) by (apply sin_gt_0; lra).
  assert (Hc : 0 < cos beta) by (apply cos_gt_0; lra).
  assert (Hsc : sin beta * sin beta + cos beta * cos beta = 1).
  { generalize (sin2_cos2 beta). unfold Rsqr. lra. }
  destruct (compressive_algebra m1 (sin beta) (cos beta) gamma Hm Hg Hs Hc Hsc Hn)
    as (Ht & _ & Hlt).
  unfold shock_m2, shock_delta, Shock.m2, Shock.delta, Shock.mn2, Shock.mn1.
  rewrite cos_2a_sin. unfold tan.
  split.
  - rewrite <- atan_0. apply atan_increasing. exact Ht.
  - rewrite sin_minus, sin_atan, cos_atan. exact Hlt.
Qed.

(** ** The velocity components at the shock *)

(** The components computed from [m2] and [setup.beta - delta] resolve the
    speed [v_nondim]: their squares add up to its square, which is below 1
    and therefore below the energy bound [2/(gamma-1) + 1]. *)
Lemma initial_state_within_energy_bound gamma beta delta m2 :
  1 < gamma -> m2 <> 0 ->
  let v := Field.v_nondim gamma m2 in
  let v_r := Field.v_nondim_r beta delta v in
  let v_theta := Field.v_nondim_theta beta delta v_r in
  v_r ^ 2 + v_theta ^ 2 = v ^ 2 /\ v ^ 2 < 1 /\ 1 < 2 / (gamma - 1) + 1.
Proof.
  intros Hg Hm. cbv zeta.
  assert (H10 : 1.0 = 1) by lra. assert (H20 : 2.0 = 2) by lra.
  unfold Field.v_nondim_theta, Field.v_nondim_r, Field.v_nondim.
  rewrite !H10, !H20.
  set (t := tan (beta - delta)).
  assert (Hm2 : 0 < m2 ^ 2) by (assert (0 < m2 * m2) by nra; nra).
  assert (Hr : 0 < 2 / (gamma - 1) / m2 ^ 2).
  { apply Rdiv_lt_0_compat; [|exact Hm2]. apply Rdiv_lt_0_compat; lra. }
  set (r := 2 / (gamma - 1) / m2 ^ 2) in *.
  assert (Hs : 0 < sqrt (r + 1)) by (apply sqrt_lt_R0; lra).
  assert (Hs2 : sqrt (r + 1) ^ 2 = r + 1) by (apply pow2_sqrt; lra).
  set (s := sqrt (r + 1)) in *.
  assert (Ht : 0 < 1 + t ^ 2) by nra.
  assert (Hc2 : sqrt (1 / (1 + t ^ 2)) ^ 2 = 1 / (1 + t ^ 2)).
  { apply pow2_sqrt. apply Rlt_le, Rdiv_lt_0_compat; lra. }
  set (c := sqrt (1 / (1 + t ^ 2))) in *.
  split; [|split].
  - replace ((1 / s * c) ^ 2 + (1 / s * c * t) ^ 2)
      with ((1 / s) ^ 2 * (c ^ 2 * (1 + t ^ 2))) by ring.
    rewrite Hc2. field. lra.
  - replace ((1 / s) ^ 2) with (1 / s ^ 2) by (field; lra).
    rewrite Hs2.
    apply Rmult_lt_reg_r with (r + 1); [lra|].
    unfold Rdiv. rewrite Rmult_assoc, Rinv_l by lra. lra.
  - assert (0 < 2 / (gamma - 1)) by (apply Rdiv_lt_0_compat; lra). lra.
Qed.

(** ** A Runge-Kutta step on two components *)

(** A step on a state of two components: the rotation field
    [(p, q)' = (q, -p)] from [(1, 0)] with [dx = 1]. *)
Example rk4_on_a_pair :
  rk4 (pure_fn (fun (_ : R) (y : R * R) => (snd y, - fst y))) 1 0 (1, 0) notebook_state
  = (Returned (- (11 / 24), - (5 / 6)), notebook_state).
Proof.
  unfold rk4, pure_fn, bind, ret.
  cbn [fst snd vadd vscale vdiv pair_space float_space].
  f_equal. f_equal. f_equal; lra.
Qed.

(** * The claims *)

Lemma scenario_delta_value :
  0.1225 < shock_delta 3.0 (30 * PI / 180) 1.4 < 0.1235.
Proof.
  unfold shock_delta. rewrite scenario_delta_eq. apply scenario_delta_bounds.
Qed.

Lemma scenario_m2_value :
  1.7965 < shock_m2 3.0 (30 * PI / 180) 1.4 < 1.7975.
Proof.
  unfold shock_m2, shock_delta. rewrite scenario_m2_eq. apply scenario_m2_bounds.
Qed.

(** C1, as stated, fails.  For [freeStreamMach = 3.0], [shockAngle = 30]
    degrees and [specificHeatRatio = 1.4] the solver's formulas do not give
    a post-shock Mach number near 2.255, even with a tolerance of 0.1: the
    value lies below 1.8. *)
Lemma C1_post_shock_mach_is_not_2_255 :
  ~ (approx 0.1 (shock_delta 3.0 (30 * PI / 180) 1.4) 0.123 /\
     approx 0.1 (shock_m2 3.0 (30 * PI / 180) 1.4) 2.255).
Proof.
  intros [_ H]. unfold approx in H.
  assert (Hm := scenario_m2_value).
  unfold Rabs in H. destruct (Rcase_abs _) in H; lra.
Qed.

(** C1, amended.  For [freeStreamMach = 3.0], [shockAngle = 30] degrees and
    [specificHeatRatio = 1.4] the solver's formulas give a flow deflection
    angle of 0.123 rad and a post-shock Mach number of 1.797, each up to
    0.0005. *)
Theorem C1_scenario_values :
  approx 0.0005 (shock_delta 3.0 (30 * PI / 180) 1.4) 0.123 /\
  approx 0.0005 (shock_m2 3.0 (30 * PI / 180) 1.4) 1.797.
Proof.
  assert (Hd := scenario_delta_value). assert (Hm := scenario_m2_value).
  unfold approx. split; apply Rabs_le; lra.
Qed.

Lemma notebook_shock_angle_is_valid : asin (1 / 3.0) < 30 * PI / 180 < PI / 2.
Proof.
  assert (Hpi := PI_RGT_0). rewrite beta_30_degrees. split; [|lra].
  assert (Hb := asin_bound (1 / 3.0)).
  apply sin_increasing_0; try lra.
  rewrite sin_asin, sin_PI6 by lra. lra.
Qed.

(** C3, on the code.  The notebook's own configuration is valid (Mach 3,
    ratio 1.4, shock angle of 30 degrees between the Mach angle and a right
    angle, so the normal Mach number exceeds 1), yet the call returns
    nothing: it raises [NameError] for the name [tem2_tesetup] and leaves
    the state as it was. *)
Theorem C3_solver_raises_on_valid_configuration :
  1 < 3.0 /\ 1 < 1.4 /\
  asin (1 / 3.0) < 30 * PI / 180 < PI / 2 /\
  1 < Shock.mn1 3.0 (30 * PI / 180) /\
  oblique_shock_wave notebook_state
  = (Raised (NameError "tem2_tesetup"), notebook_state).
Proof.
  split; [lra|]. split; [lra|]. split; [apply notebook_shock_angle_is_valid|].
  split.
  - rewrite scenario_mn1. lra.
  - apply oblique_shock_wave_module_state. lra.
Qed.

Lemma field_speed_mach_2 : Field.v_nondim 1.4 2 = 2 / 3.
Proof.
  unfold Field.v_nondim.
  replace (2.0 / (1.4 - 1) / 2 ^ 2 + 1.0) with (1.5 * 1.5) by lra.
  rewrite sqrt_square by lra. lra.
Qed.

(** C2, on the code.  Take the state with [theta = delta = pi/6] and Mach 2
    behind the shock of the notebook's configuration: the polar angle is
    positive and the divisor of the Taylor-Maccoll quotient is [-1/9], away
    from zero.  The evaluator returns no derivative there: the call raises
    [NameError] (inside the nested solver call) and leaves the state as it
    was. *)
Theorem C2_field_evaluator_raises_on_regular_state :
  let v := Field.v_nondim 1.4 2 in
  let v_r := Field.v_nondim_r (30 * PI / 180) (PI / 6) v in
  let v_theta := Field.v_nondim_theta (30 * PI / 180) (PI / 6) v_r in
  0 < PI / 6 /\
  Field.tm2_den 1.4 v v_theta = - (1 / 9) /\
  taylor_maccoll (PI / 6) 2 notebook_state
  = (Raised (NameError "tem2_tesetup"), notebook_state).
Proof.
  cbv zeta. assert (Hpi := PI_RGT_0). repeat split.
  - lra.
  - rewrite field_speed_mach_2.
    unfold Field.tm2_den, Field.v_nondim_theta, Field.v_nondim_r.
    replace (30 * PI / 180 - PI / 6) with 0 by lra.
    rewrite tan_0. lra.
  - eapply taylor_maccoll_name_error.
    + apply module_state_setup.
    + lra.
    + reflexivity.
Qed.

(** C10, as stated, fails.  In the notebook's state the call
    [taylor_maccoll(0.2, 2.0)] does not end in an out-of-bounds index
    error. *)
Lemma C10_failure_is_not_an_index_error :
  ~ (exists st', taylor_maccoll 0.2 2 notebook_state = (Raised IndexError, st')).
Proof.
  intros [st' H].
  rewrite (taylor_maccoll_name_error 0.2 2 notebook_state 3.0 (30 * PI / 180) 1.4) in H.
  - discriminate H.
  - apply module_state_setup.
  - lra.
  - reflexivity.
Qed.

(** C10, amended.  For every input [(delta, m2)] the call ends in an
    exception in every state, so it never returns a derivative vector; in
    the notebook's state the exception is the [NameError] for
    [tem2_tesetup] raised by the nested solver call, before the result
    vector is allocated. *)
Theorem C10_field_evaluator_never_returns (delta m2 : R) :
  (forall st, raises (taylor_maccoll delta m2) st) /\
  taylor_maccoll delta m2 notebook_state
  = (Raised (NameError "tem2_tesetup"), notebook_state).
Proof.
  split.
  - intros st. apply taylor_maccoll_raises.
  - eapply taylor_maccoll_name_error.
    + apply module_state_setup.
    + lra.
    + reflexivity.
Qed.




Lemma oblique_shock_wave_zero_division st m1 beta :
  setup_is st m1 beta (-1) ->
  oblique_shock_wave st = (Raised ZeroDivisionError, st).
Proof.
  intros Hs. unfold oblique_shock_wave.
  rewrite (bind_returned _ _ _ _ _ (setup_attr_m1 _ _ _ _ Hs)).
  rewrite (bind_returned _ _ _ _ _ (setup_attr_beta _ _ _ _ Hs)).
  rewrite (bind_returned _ _ _ _ _ (setup_attr_gamma _ _ _ _ Hs)).
  rewrite (bind_returned _ _ _ _ _ (setup_attr_gamma _ _ _ _ Hs)).
  apply bind_raised. unfold float_divisor.
  destruct (Req_EM_T (-1 + 1) 0) as [_|H]; [reflexivity | exfalso; lra].
Qed.

(** C9, as stated, fails.  The solver has no explicit input, yet its
    outcome changes with the module-level object [setup]: with the
    notebook's [gamma = 1.4] and with [gamma = -1] the same call ends
    differently.  And where the call runs to its end it changes the state:
    the array that [ob] names no longer holds what it held. *)
Lemma C9_solver_depends_on_and_changes_module_state :
  fst (oblique_shock_wave (module_state 3.0 30 1.4 [0; 0]))
  <> fst (oblique_shock_wave (module_state 3.0 30 (-1) [0; 0])) /\
  heap (snd (oblique_shock_wave (scratch_state 3.0 30 1.4 [0; 0]))) !! 1%nat
  <> heap (scratch_state 3.0 30 1.4 [0; 0]) !! 1%nat.
Proof.
  split.
  - rewrite oblique_shock_wave_module_state by lra.
    rewrite (oblique_shock_wave_zero_division _ 3.0 (30 * PI / 180))
      by apply module_state_setup.
    cbn [fst]. discriminate.
  - destruct (scratch_state_returns 3.0 30 1.4 [0; 0]) as (st' & Hrun & Hheap);
      [lra | apply small_square_in_range; lra | reflexivity |].
    rewrite Hrun. cbn [snd]. rewrite Hheap.
    change (heap (scratch_state 3.0 30 1.4 [0; 0]) !! 1%nat) with (Some (NDArray [0; 0])).
    intros H. injection H as Hd _.
    assert (Hv := scenario_delta_value). lra.
Qed.

(** C9, amended.  Neither component is a function of explicit inputs
    only.  The solver's closing statements write [delta] and [m2] into the
    module-level array [ob] and return that same array, so after a second
    call the array handed out by the first call holds the second call's
    values.  The solver, which has no parameter, and the field evaluator
    read the module-level name [setup]: in a state without it both raise
    [NameError]. *)
Theorem C9_solver_works_on_module_state st lo data (delta1 mach1 delta2 mach2 : R) :
  globals st !! "ob" = Some (VRef lo) ->
  heap st !! lo = Some (NDArray data) ->
  length data = 2%nat ->
  shock_store delta1 mach1 st
  = (Returned (VRef lo), set_heap (<[lo := NDArray [delta1; mach1]]> (heap st)) st) /\
  (earlier <- shock_store delta1 mach1 ;; shock_store delta2 mach2 ;;; getitem earlier 0) st
  = (Returned delta2, set_heap (<[lo := NDArray [delta2; mach2]]> (heap st)) st) /\
  (forall st0 delta m2',
      globals st0 !! "setup" = None ->
      oblique_shock_wave st0 = (Raised (NameError "setup"), st0) /\
      taylor_maccoll delta m2' st0 = (Raised (NameError "setup"), st0)).
Proof.
  intros Hob Hho Hlen.
  assert (H1 := shock_store_in_place st lo data delta1 mach1 Hob Hho Hlen).
  split; [exact H1|]. split.
  - rewrite (bind_returned _ _ _ _ _ H1).
    set (st1 := set_heap (<[lo := NDArray [delta1; mach1]]> (heap st)) st).
    assert (H2 : shock_store delta2 mach2 st1
                 = (Returned (VRef lo), set_heap (<[lo := NDArray [delta2; mach2]]> (heap st)) st)).
    { rewrite (shock_store_in_place st1 lo [delta1; mach1] delta2 mach2).
      - unfold st1, set_heap. cbn [globals heap]. now rewrite insert_insert_eq.
      - exact Hob.
      - unfold st1. cbn [set_heap heap]. apply lookup_insert_eq.
      - reflexivity. }
    rewrite (bind_returned _ _ _ _ _ H2).
    eapply getitem_array.
    + cbn [set_heap heap]. apply lookup_insert_eq.
    + reflexivity.
    + reflexivity.
  - intros st0 delta m2' Hn.
    assert (Hs := oblique_shock_wave_setup_unbound st0 Hn).
    split; [exact Hs|].
    unfold taylor_maccoll. now apply bind_raised.
Qed.

Lemma C9_solver_works_on_module_state_witness :
  shock_store 1 2 notebook_state
  = (Returned (VRef 1%nat),
     set_heap (<[1%nat := NDArray [1; 2]]> (heap notebook_state)) notebook_state) /\
  (earlier <- shock_store 1 2 ;; shock_store 3 4 ;;; getitem earlier 0) notebook_state
  = (Returned 3,
     set_heap (<[1%nat := NDArray [3; 4]]> (heap notebook_state)) notebook_state).
Proof.
  destruct (C9_solver_works_on_module_state notebook_state 1%nat [0; 0] 1 2 3 4)
    as (H1 & H2 & _).
  - reflexivity.
  - reflexivity.
  - reflexivity.
  - split; [exact H1 | exact H2].
Defined.

(** C4, as stated, fails.  For [dy/dx = 1] on a float state, a step
    [dx = 1] from [(x, y) = (0, 5)]: the specification's next state is 6,
    and [rk4] returns something else (the increment, 1). *)
Lemma C4_rk4_does_not_return_next_state :
  snd (rk4_spec_step (fun _ _ : R => 1) 1 0 5) = 6 /\
  rk4 (pure_fn (fun _ _ : R => 1)) 1 0 5 notebook_state
  <> (Returned (snd (rk4_spec_step (fun _ _ : R => 1) 1 0 5)), notebook_state).
Proof.
  split.
  - unfold rk4_spec_step. cbn [snd vadd vscale vdiv float_space]. lra.
  - unfold rk4, pure_fn, bind, ret, rk4_spec_step.
    cbn [snd vadd vscale vdiv float_space].
    intros H. injection H as H. lra.
Qed.

(** C4, amended.  With the four slopes [k1 .. k4] of the classical rule,
    [rk4] returns the weighted increment [(k1 + 2 k2 + 2 k3 + k4) / 6]
    alone: the specification's next state is [y] plus the value returned.
    [rk4] does not add [y] and does not return [x + dx].  This holds for
    every derivative function that returns, every position, every state
    (a float, or several floats as an array holds them) and every signed
    step. *)
Theorem C4_rk4_returns_the_increment {V} {S : StateSpace V}
    (f : R -> V -> V) (dx x : R) (y : V) (st : state) :
  exists increment,
    rk4 (pure_fn f) dx x y st = (Returned increment, st) /\
    rk4_spec_step f dx x y = (x + dx, y ⊕ increment).
Proof.
  eexists. split.
  - unfold rk4, pure_fn, bind, ret. reflexivity.
  - unfold rk4_spec_step.
    assert (Hhalf : forall k : V, 0.5 ⊙ k = k ⊘ 2).
    { intros k. rewrite vdiv_vscale. f_equal. lra. }
    assert (Hone : forall k : V, 1.0 ⊙ k = k).
    { intros k. replace 1.0 with 1 by lra. apply vscale_1. }
    assert (Hsix : forall k : V, k ⊘ 6.0 = k ⊘ 6).
    { intros k. f_equal. lra. }
    rewrite !Hhalf, Hone, Hsix.
    replace (x + 0.5 * dx) with (x + dx / 2) by lra.
    replace (x + 1.0 * dx) with (x + dx) by lra.
    reflexivity.
Qed.

Lemma float_eps_pos : 0 < float_eps.
Proof. unfold float_eps. apply Rinv_0_lt_compat. apply pow_lt. lra. Qed.

Lemma sqrt_float_eps_sqr : sqrt float_eps ^ 2 = float_eps.
Proof. apply pow2_sqrt. apply Rlt_le, float_eps_pos. Qed.

Lemma spec_fd_step_pos p : 0 < spec_fd_step p.
Proof.
  unfold spec_fd_step. apply Rmult_lt_0_compat.
  - apply sqrt_lt_R0, float_eps_pos.
  - assert (H := Rmax_l 1 (Rabs p)). lra.
Qed.

(** [central_differences] takes [eps = sqrt(machine epsilon)] as it is and
    returns the three-point second difference
    [(y[i+1] - 2 y[i] + y[i-1]) / eps**2] of the array entries around an
    inner node [i]; the divisor [eps**2] is the machine epsilon. *)
Lemma central_differences_second_difference st l data (i : Z) (x a b c : R) :
  heap st !! l = Some (NDArray data) ->
  (1 <= i)%Z ->
  data !! Z.to_nat (i + 1) = Some a ->
  data !! Z.to_nat i = Some b ->
  data !! Z.to_nat (i - 1) = Some c ->
  central_differences i x (VRef l) st
  = (Returned ((a - 2 * b + c) / float_eps), st).
Proof.
  intros Hh Hi Ha Hb Hc.
  assert (Hlen := lookup_lt_Some _ _ _ Ha).
  assert (Hin : forall k, (0 <= k <= i + 1)%Z ->
                          index_of (length data) k = Some (Z.to_nat k)).
  { intros k Hk. apply index_of_front. lia. }
  unfold central_differences.
  erewrite bind_returned; cycle 1.
  { eapply getitem_array; [exact Hh | apply Hin; lia | exact Ha]. }
  erewrite bind_returned; cycle 1.
  { eapply getitem_array; [exact Hh | apply Hin; lia | exact Hb]. }
  erewrite bind_returned; cycle 1.
  { eapply getitem_array; [exact Hh | apply Hin; lia | exact Hc]. }
  unfold ret. now rewrite sqrt_float_eps_sqr.
Qed.

(** C7, on the code.  Sample the residual [F(p) = p] around
    [paramGuess = 0] with the specification's step [h], at [-h], [0] and
    [h].  The central quotient of the claim is 1 there, the derivative of
    [F].  [central_differences] at the middle node of these samples
    returns 0: it forms the second difference
    [(y[i+1] - 2 y[i] + y[i-1]) / eps**2], while it names its result
    [dydx] and stands as the divisor of the Newton update. *)
Theorem C7_central_differences_misses_the_derivative :
  let h := spec_fd_step 0 in
  let st := array_state [0 - h; 0; 0 + h] in
  spec_central_difference (fun p => p) 0 = 1 /\
  central_differences 1 0 (VRef 0%nat) st = (Returned 0, st).
Proof.
  cbv zeta. assert (Hh := spec_fd_step_pos 0). split.
  - unfold spec_central_difference. cbv zeta. field. lra.
  - rewrite (central_differences_second_difference
               (array_state [0 - spec_fd_step 0; 0; 0 + spec_fd_step 0]) 0%nat
               [0 - spec_fd_step 0; 0; 0 + spec_fd_step 0] 1 0
               (0 + spec_fd_step 0) 0 (0 - spec_fd_step 0));
      [|reflexivity|lia|reflexivity|reflexivity|reflexivity].
    do 2 f_equal. unfold Rdiv.
    replace (0 + spec_fd_step 0 - 2 * 0 + (0 - spec_fd_step 0)) with 0 by lra.
    apply Rmult_0_l.
Qed.






(** * Further properties of the code *)

(** ** The oblique shock relations *)

Lemma squared_mach_above_one mn1 : 1 <= mn1 -> 1 <= mn1 ^ 2.
Proof. intros H. nra. Qed.

(** X1.  For every valid configuration (free-stream Mach number and ratio
    of specific heats above 1, shock angle between the Mach angle and a
    right angle) the deflection angle computed by the solver's formulas is
    positive and smaller than the shock angle, so the angle
    [setup.beta - delta] that the later formulas use is positive. *)
Theorem X1_deflection_below_shock_angle m1 beta gamma :
  1 < m1 -> 1 < gamma -> asin (1 / m1) < beta < PI / 2 ->
  0 < shock_delta m1 beta gamma < beta.
Proof.
  intros Hm Hg Hbeta.
  destruct (above_mach_angle m1 beta Hm Hbeta) as [Hb0 Hn].
  destruct Hbeta as [_ Hb1].
  assert (Hpi := PI2_Rlt_PI).
  assert (Hs : 0 < sin beta) by (apply sin_gt_0; lra).
  assert (Hc : 0 < cos beta) by (apply cos_gt_0; lra).
  assert (Hsc : sin beta * sin beta + cos beta * cos beta = 1).
  { generalize (sin2_cos2 beta). unfold Rsqr. lra. }
  destruct (compressive_algebra m1 (sin beta) (cos beta) gamma Hm Hg Hs Hc Hsc Hn)
    as (Ht & Hw & _).
  unfold shock_delta, Shock.delta, Shock.mn1.
  rewrite cos_2a_sin. unfold tan.
  match goal with |- 0 < atan ?t < _ => set (t0 := t) in * end.
  assert (Hd0 : 0 < atan t0) by (rewrite <- atan_0; now apply atan_increasing).
  split; [exact Hd0|].
  assert (Hd1 := atan_bound t0).
  assert (Hsin : 0 < sin (beta - atan t0)).
  { rewrite sin_minus, sin_atan, cos_atan. exact Hw. }
  assert (H0 : 0 < beta - atan t0).
  { apply sin_increasing_0; try lra. rewrite sin_0. exact Hsin. }
  lra.
Qed.

Lemma X1_deflection_below_shock_angle_witness :
  0 < shock_delta 3.0 (30 * PI / 180) 1.4 < 30 * PI / 180.
Proof.
  apply (X1_deflection_below_shock_angle 3.0 (30 * PI / 180) 1.4).
  - lra.
  - lra.
  - apply notebook_shock_angle_is_valid.
Defined.

(** X2.  For every valid configuration the post-shock Mach number computed
    by the solver's formulas is positive and smaller than the free-stream
    Mach number. *)
Theorem X2_post_shock_mach_below_free_stream m1 beta gamma :
  1 < m1 -> 1 < gamma -> asin (1 / m1) < beta < PI / 2 ->
  0 < shock_m2 m1 beta gamma < m1.
Proof.
  intros Hm Hg Hbeta.
  split; [|now apply shock_formulas_compressive].
  destruct (above_mach_angle m1 beta Hm Hbeta) as [Hb0 Hn].
  destruct Hbeta as [_ Hb1].
  assert (Hpi := PI2_Rlt_PI).
  assert (Hs : 0 < sin beta) by (apply sin_gt_0; lra).
  assert (Hc : 0 < cos beta) by (apply cos_gt_0; lra).
  assert (Hsc : sin beta * sin beta + cos beta * cos beta = 1).
  { generalize (sin2_cos2 beta). unfold Rsqr. lra. }
  destruct (compressive_algebra m1 (sin beta) (cos beta) gamma Hm Hg Hs Hc Hsc Hn)
    as (_ & Hw & _).
  unfold shock_m2, shock_delta, Shock.m2, Shock.delta.
  apply Rdiv_lt_0_compat.
  - unfold Shock.mn2. apply sqrt_lt_R0.
    assert (HN : 1 < Shock.mn1 m1 beta ^ 2) by nra.
    apply Rdiv_lt_0_compat; nra.
  - rewrite cos_2a_sin. unfold tan, Shock.mn1.
    rewrite sin_minus, sin_atan, cos_atan. exact Hw.
Qed.

Lemma X2_post_shock_mach_below_free_stream_witness :
  0 < shock_m2 3.0 (30 * PI / 180) 1.4 < 3.0.
Proof.
  apply (X2_post_shock_mach_below_free_stream 3.0 (30 * PI / 180) 1.4).
  - lra.
  - lra.
  - apply notebook_shock_angle_is_valid.
Defined.

(** X3.  Across the shock (normal Mach number and ratio of specific heats
    above 1) the three ratios of the solver rise above 1: density, pressure
    and their quotient, the temperature ratio of the fourth assignment.  The
    density ratio stays below [(gamma+1)/(gamma-1)], and the normal Mach
    number behind the shock lies between [sqrt((gamma-1)/(2 gamma))] and 1. *)
Theorem X3_jump_ratios gamma mn1 :
  1 < gamma -> 1 < mn1 ->
  1 < Shock.rho2_rho1 gamma mn1 < (gamma + 1) / (gamma - 1) /\
  1 < Shock.pre2_pre1 gamma mn1 /\
  1 < Shock.pre2_pre1 gamma mn1 / Shock.rho2_rho1 gamma mn1 /\
  sqrt ((gamma - 1) / (2 * gamma)) < Shock.mn2 gamma mn1 < 1.
Proof.
  intros Hg Hn.
  assert (HN : 1 < mn1 ^ 2) by nra.
  unfold Shock.rho2_rho1, Shock.pre2_pre1, Shock.mn2.
  assert (H10 : 1.0 = 1) by lra. assert (H05 : 0.5 = 1 / 2) by lra.
  rewrite !H10, !H05.
  set (N := mn1 ^ 2) in *. clearbody N.
  assert (Ha : 0 < N - 1) by lra.
  assert (Hb : 0 < gamma - 1) by lra.
  assert (Hab : 0 < (N - 1) * (gamma - 1)) by (apply Rmult_lt_0_compat; lra).
  assert (HD : 0 < 2 + (gamma - 1) * N) by nra.
  assert (Hrho : 1 < (gamma + 1) * N / (2 + (gamma - 1) * N)).
  { apply Rmult_lt_reg_r with (2 + (gamma - 1) * N); [exact HD|].
    unfold Rdiv. rewrite Rmult_assoc, Rinv_l by lra. nra. }
  assert (Hpre : (2 * gamma * N - (gamma - 1)) / (gamma + 1)
                 = 1 + 2 * gamma / (gamma + 1) * (N - 1)) by (field; lra).
  assert (Hpre1 : 1 < 1 + 2 * gamma / (gamma + 1) * (N - 1)).
  { assert (0 < 2 * gamma / (gamma + 1)) by (apply Rdiv_lt_0_compat; lra).
    assert (0 < 2 * gamma / (gamma + 1) * (N - 1)) by (apply Rmult_lt_0_compat; lra).
    lra. }
  split; [split|split; [|split; [|split]]].
  - exact Hrho.
  - apply Rmult_lt_reg_r with ((gamma - 1) * (2 + (gamma - 1) * N)).
    + apply Rmult_lt_0_compat; lra.
    + replace ((gamma + 1) * N / (2 + (gamma - 1) * N)
               * ((gamma - 1) * (2 + (gamma - 1) * N)))
        with ((gamma + 1) * N * (gamma - 1)) by (field; lra).
      replace ((gamma + 1) / (gamma - 1) * ((gamma - 1) * (2 + (gamma - 1) * N)))
        with ((gamma + 1) * (2 + (gamma - 1) * N)) by (field; lra).
      nra.
  - exact Hpre1.
  - rewrite <- Hpre.
    apply Rmult_lt_reg_r with ((gamma + 1) * N / (2 + (gamma - 1) * N)); [lra|].
    replace ((2 * gamma * N - (gamma - 1)) / (gamma + 1)
             / ((gamma + 1) * N / (2 + (gamma - 1) * N))
             * ((gamma + 1) * N / (2 + (gamma - 1) * N)))
      with ((2 * gamma * N - (gamma - 1)) / (gamma + 1)) by (field; lra).
    rewrite Rmult_1_l.
    apply Rmult_lt_reg_r with ((gamma + 1) * (2 + (gamma - 1) * N)).
    { apply Rmult_lt_0_compat; lra. }
    replace ((gamma + 1) * N / (2 + (gamma - 1) * N)
             * ((gamma + 1) * (2 + (gamma - 1) * N)))
      with ((gamma + 1) ^ 2 * N) by (field; lra).
    replace ((2 * gamma * N - (gamma - 1)) / (gamma + 1)
             * ((gamma + 1) * (2 + (gamma - 1) * N)))
      with ((2 * gamma * N - (gamma - 1)) * (2 + (gamma - 1) * N)) by (field; lra).
    assert (H1 : 0 < (N - 1) * (N - 1) * (gamma - 1))
      by (repeat apply Rmult_lt_0_compat; lra).
    assert (H2 : 0 < (N - 1) * (gamma - 1) * (gamma - 1))
      by (repeat apply Rmult_lt_0_compat; lra).
    assert (H3 : 0 < (N - 1) * (N - 1) * (gamma - 1) * (gamma - 1))
      by (repeat apply Rmult_lt_0_compat; lra).
    nra.
  - apply sqrt_lt_1_alt. split.
    + apply Rlt_le, Rdiv_lt_0_compat; lra.
    + assert (HQ : 0 < gamma * N - 1 / 2 * (gamma - 1)) by nra.
      apply Rmult_lt_reg_r with (2 * gamma * (gamma * N - 1 / 2 * (gamma - 1))).
      { apply Rmult_lt_0_compat; lra. }
      replace ((gamma - 1) / (2 * gamma) * (2 * gamma * (gamma * N - 1 / 2 * (gamma - 1))))
        with ((gamma - 1) * (gamma * N - 1 / 2 * (gamma - 1))) by (field; lra).
      replace ((1 + 1 / 2 * (gamma - 1) * N) / (gamma * N - 1 / 2 * (gamma - 1))
               * (2 * gamma * (gamma * N - 1 / 2 * (gamma - 1))))
        with ((1 + 1 / 2 * (gamma - 1) * N) * (2 * gamma)) by (field; lra).
      nra.
  - assert (HQ : 0 < gamma * N - 1 / 2 * (gamma - 1)) by nra.
    assert (HP : 0 < 1 + 1 / 2 * (gamma - 1) * N) by nra.
    assert (Hlt : sqrt ((1 + 1 / 2 * (gamma - 1) * N) / (gamma * N - 1 / 2 * (gamma - 1)))
                  < sqrt 1).
    { apply sqrt_lt_1_alt. split.
      - apply Rlt_le, Rdiv_lt_0_compat; lra.
      - apply Rmult_lt_reg_r with (gamma * N - 1 / 2 * (gamma - 1)); [exact HQ|].
        unfold Rdiv. rewrite Rmult_assoc, Rinv_l by lra. nra. }
    now rewrite sqrt_1 in Hlt.
Qed.

Lemma X3_jump_ratios_witness :
  1 < Shock.rho2_rho1 1.4 1.5 < (1.4 + 1) / (1.4 - 1) /\
  1 < Shock.pre2_pre1 1.4 1.5 /\
  1 < Shock.pre2_pre1 1.4 1.5 / Shock.rho2_rho1 1.4 1.5 /\
  sqrt ((1.4 - 1) / (2 * 1.4)) < Shock.mn2 1.4 1.5 < 1.
Proof. apply (X3_jump_ratios 1.4 1.5); lra. Defined.

(** X4.  At the Mach angle, where the normal Mach number is exactly 1, the
    solver's formulas give no jump: density and pressure ratios are 1, the
    normal Mach number behind the shock is 1, the deflection angle is 0 and
    the post-shock Mach number equals the free-stream Mach number. *)
Theorem X4_mach_wave_limit m1 beta gamma :
  Shock.mn1 m1 beta = 1 -> 0 < gamma + 1 ->
  Shock.rho2_rho1 gamma (Shock.mn1 m1 beta) = 1 /\
  Shock.pre2_pre1 gamma (Shock.mn1 m1 beta) = 1 /\
  Shock.mn2 gamma (Shock.mn1 m1 beta) = 1 /\
  shock_delta m1 beta gamma = 0 /\
  shock_m2 m1 beta gamma = m1.
Proof.
  intros Hn Hg. rewrite Hn.
  assert (H10 : 1.0 = 1) by lra. assert (H05 : 0.5 = 1 / 2) by lra.
  assert (Hrho : Shock.rho2_rho1 gamma 1 = 1).
  { unfold Shock.rho2_rho1. field. lra. }
  assert (Hpre : Shock.pre2_pre1 gamma 1 = 1).
  { unfold Shock.pre2_pre1. rewrite H10. field. lra. }
  assert (Hmn2 : Shock.mn2 gamma 1 = 1).
  { unfold Shock.mn2. rewrite H10, !H05.
    replace ((1 + 1 / 2 * (gamma - 1) * 1 ^ 2) / (gamma * 1 ^ 2 - 1 / 2 * (gamma - 1)))
      with 1 by (field; lra).
    apply sqrt_1. }
  assert (Hdelta : shock_delta m1 beta gamma = 0).
  { unfold shock_delta, Shock.delta. rewrite Hn.
    replace (1 ^ 2 - 1) with 0 by ring.
    unfold Rdiv. rewrite Rmult_0_r, Rmult_0_l. apply atan_0. }
  repeat split; try assumption.
  unfold shock_m2. rewrite Hdelta, Hn, Hmn2. unfold Shock.m2.
  rewrite Rminus_0_r.
  unfold Shock.mn1 in Hn.
  assert (Hs : sin beta <> 0) by (intros H0; rewrite H0 in Hn; lra).
  apply Rmult_eq_reg_r with (sin beta); [|exact Hs].
  unfold Rdiv. rewrite Rmult_assoc, Rinv_l by exact Hs. lra.
Qed.

Lemma X4_mach_wave_limit_witness :
  Shock.rho2_rho1 1.4 (Shock.mn1 2 (30 * PI / 180)) = 1 /\
  Shock.pre2_pre1 1.4 (Shock.mn1 2 (30 * PI / 180)) = 1 /\
  Shock.mn2 1.4 (Shock.mn1 2 (30 * PI / 180)) = 1 /\
  shock_delta 2 (30 * PI / 180) 1.4 = 0 /\
  shock_m2 2 (30 * PI / 180) 1.4 = 2.
Proof.
  apply (X4_mach_wave_limit 2 (30 * PI / 180) 1.4).
  - unfold Shock.mn1. rewrite beta_30_degrees, sin_PI6. lra.
  - lra.
Defined.

(** X5.  The solver's four jump formulas agree with each other: the
    pressure ratio is the Rankine-Hugoniot function of the density ratio,
    and the normal Mach numbers before and behind the shock are tied to the
    two ratios by [mn2^2 * rho2_rho1 * pre2_pre1 = mn1^2]. *)
Theorem X5_jump_relations_agree gamma mn1 :
  1 < gamma -> 1 <= mn1 ->
  Shock.pre2_pre1 gamma mn1
  = ((gamma + 1) * Shock.rho2_rho1 gamma mn1 - (gamma - 1))
    / ((gamma + 1) - (gamma - 1) * Shock.rho2_rho1 gamma mn1) /\
  Shock.mn2 gamma mn1 ^ 2 * Shock.rho2_rho1 gamma mn1 * Shock.pre2_pre1 gamma mn1
  = mn1 ^ 2.
Proof.
  intros Hg Hn.
  assert (HN := squared_mach_above_one mn1 Hn).
  assert (H10 : 1.0 = 1) by lra. assert (H05 : 0.5 = 1 / 2) by lra.
  unfold Shock.mn2, Shock.rho2_rho1, Shock.pre2_pre1. rewrite !H10, !H05.
  set (N := mn1 ^ 2) in *. clearbody N.
  assert (HD : 0 < 2 + (gamma - 1) * N) by nra.
  assert (HQ : 0 < gamma * N - 1 / 2 * (gamma - 1)) by nra.
  assert (HP : 0 < 1 + 1 / 2 * (gamma - 1) * N) by nra.
  split.
  - field. split; [lra|]. split; [|lra].
    replace ((gamma + 1) * (2 + (gamma - 1) * N) - (gamma - 1) * ((gamma + 1) * N))
      with (2 * (gamma + 1)) by ring.
    lra.
  - rewrite pow2_sqrt by (apply Rlt_le, Rdiv_lt_0_compat; lra).
    field. lra.
Qed.

Lemma X5_jump_relations_agree_witness :
  Shock.pre2_pre1 1.4 1.5
  = ((1.4 + 1) * Shock.rho2_rho1 1.4 1.5 - (1.4 - 1))
    / ((1.4 + 1) - (1.4 - 1) * Shock.rho2_rho1 1.4 1.5) /\
  Shock.mn2 1.4 1.5 ^ 2 * Shock.rho2_rho1 1.4 1.5 * Shock.pre2_pre1 1.4 1.5
  = 1.5 ^ 2.
Proof. apply (X5_jump_relations_agree 1.4 1.5); lra. Defined.

(** ** What the solver writes *)

Lemma frame_refl names st : frame names st st.
Proof. split; [reflexivity | auto]. Qed.

Lemma named_by_same_globals names st st' l :
  globals st' = globals st -> named_by names st' l -> named_by names st l.
Proof. intros Hg (n & Hin & Hn). exists n. split; [exact Hin | now rewrite <- Hg]. Qed.

Lemma frame_trans names st st1 st2 :
  frame names st st1 -> frame names st1 st2 -> frame names st st2.
Proof.
  intros [Hg1 Hh1] [Hg2 Hh2]. split; [congruence|].
  intros l o Hl Hn. apply Hh2.
  - now apply Hh1.
  - intros Hn1. apply Hn. now apply named_by_same_globals with st1.
Qed.

Lemma keeps_reads {A} names (c : py A) st : reads_only c -> keeps names c st.
Proof. intros Hc r st' E. apply Hc in E. subst st'. apply frame_refl. Qed.

Lemma keeps_bind {A B} names (c : py A) (k : A -> py B) st :
  keeps names c st ->
  (forall a st1, c st = (Returned a, st1) -> keeps names (k a) st1) ->
  keeps names (bind c k) st.
Proof.
  intros Hc Hk r st' E. unfold bind in E.
  destruct (c st) as [[a|e] st1] eqn:Ec.
  - apply frame_trans with st1; [now apply (Hc _ _ Ec) | exact (Hk a st1 eq_refl _ _ E)].
  - injection E as <- <-. now apply (Hc _ _ Ec).
Qed.

Lemma keeps_bind_reads {A B} names (c : py A) (k : A -> py B) st :
  reads_only c -> (forall a, keeps names (k a) st) -> keeps names (bind c k) st.
Proof.
  intros Hc Hk. apply keeps_bind; [now apply keeps_reads|].
  intros a st1 E. apply Hc in E. subst st1. apply Hk.
Qed.

Lemma keeps_bind_load {B} names n (k : value -> py B) st :
  (forall v, globals st !! n = Some v -> keeps names (k v) st) ->
  keeps names (bind (load_global n) k) st.
Proof.
  intros Hk. apply keeps_bind; [apply keeps_reads, reads_only_load_global|].
  intros v st1 E. unfold load_global in E.
  destruct (globals st !! n) as [v'|] eqn:En; [|discriminate].
  injection E as <- <-. now apply Hk.
Qed.

Lemma frame_one_object names st l o :
  named_by names st l -> frame names st (set_heap (<[l := o]> (heap st)) st).
Proof.
  intros Hn. split; [reflexivity|].
  intros l' o' Hl' Hn'. cbn [set_heap heap].
  rewrite lookup_insert_ne; [exact Hl'|]. intros ->. now apply Hn'.
Qed.

Lemma keeps_setattr names st v attr x :
  (forall l, v = VRef l -> named_by names st l) ->
  keeps names (setattr v attr x) st.
Proof.
  intros Hv r st' E. unfold setattr in E.
  destruct v as [y|l]; [injection E as <- <-; apply frame_refl|].
  destruct (heap st !! l) as [[attrs|data]|];
    try (injection E as <- <-; apply frame_refl).
  injection E as <- <-. apply frame_one_object. now apply Hv.
Qed.

Lemma keeps_setitem names st v k x :
  (forall l, v = VRef l -> named_by names st l) ->
  keeps names (setitem v k x) st.
Proof.
  intros Hv r st' E. unfold setitem in E.
  destruct v as [y|l]; [injection E as <- <-; apply frame_refl|].
  destruct (heap st !! l) as [[attrs|data]|];
    try (injection E as <- <-; apply frame_refl).
  destruct (index_of (length data) k) as [i|];
    [|injection E as <- <-; apply frame_refl].
  injection E as <- <-. apply frame_one_object. now apply Hv.
Qed.

Lemma keeps_shock_store names delta m2 st :
  "ob" ∈ names -> keeps names (shock_store delta m2) st.
Proof.
  intros Hin. unfold shock_store.
  apply keeps_bind_load. intros v Hv.
  apply keeps_bind.
  { apply keeps_setitem. intros l ->. now exists "ob". }
  intros _ st1 _.
  apply keeps_bind_load. intros v1 Hv1.
  apply keeps_bind.
  { apply keeps_setitem. intros l ->. now exists "ob". }
  intros _ st2 _.
  apply keeps_reads, reads_only_load_global.
Qed.

(** X6.  Whatever a call of [oblique_shock_wave] answers, in whatever
    state, it has rebound no module name, and every heap object other than
    the two that the names [tem2_tesetup] and [ob] refer to is as it was;
    in particular the [setup] object is never modified unless
    [tem2_tesetup] names that same object. *)
Theorem X6_solver_writes_only_two_objects st r st' :
  oblique_shock_wave st = (r, st') ->
  globals st' = globals st /\
  forall l o,
    heap st !! l = Some o ->
    globals st !! "tem2_tesetup" <> Some (VRef l) ->
    globals st !! "ob" <> Some (VRef l) ->
    heap st' !! l = Some o.
Proof.
  intros E.
  assert (K : keeps ["tem2_tesetup"; "ob"] oblique_shock_wave st).
  { unfold oblique_shock_wave.
    repeat (apply keeps_bind_reads;
            [first [apply reads_only_setup_attr | apply reads_only_float_divisor] | intros ?]).
    apply keeps_bind_load. intros target Ht.
    apply keeps_bind.
    { apply keeps_setattr. intros l ->. exists "tem2_tesetup". split; [set_solver | exact Ht]. }
    intros _ st1 _.
    repeat (apply keeps_bind_reads;
            [first [apply reads_only_setup_attr | apply reads_only_float_square] | intros ?]).
    apply keeps_shock_store. set_solver. }
  destruct (K r st' E) as [Hg Hh]. split; [exact Hg|].
  intros l o Hl Ht Hob. apply Hh; [exact Hl|].
  intros (n & Hin & Hn).
  apply elem_of_cons in Hin as [->|Hin]; [congruence|].
  apply elem_of_cons in Hin as [->|Hin]; [congruence|].
  now apply elem_of_nil in Hin.
Qed.

Lemma X6_solver_writes_only_two_objects_witness :
  globals (snd (oblique_shock_wave (scratch_state 3.0 30 1.4 [0; 0])))
  = globals (scratch_state 3.0 30 1.4 [0; 0]) /\
  heap (snd (oblique_shock_wave (scratch_state 3.0 30 1.4 [0; 0]))) !! 0%nat
  = Some (Instance (InitialConditions 3.0 30 1.4)).
Proof.
  destruct (oblique_shock_wave (scratch_state 3.0 30 1.4 [0; 0])) as [r st'] eqn:E.
  destruct (X6_solver_writes_only_two_objects _ _ _ E) as [Hg Hh].
  split; [exact Hg|].
  apply Hh.
  - reflexivity.
  - discriminate.
  - discriminate.
Defined.

(** X7.  If the array that [ob] names has fewer than two entries, the
    solver's closing statements end in [IndexError], and they do not roll
    back: an array of one entry has had [delta] stored in it by then. *)
Theorem X7_short_result_buffer st lo data (delta m2 : R) :
  globals st !! "ob" = Some (VRef lo) ->
  heap st !! lo = Some (NDArray data) ->
  (length data < 2)%nat ->
  exists st',
    shock_store delta m2 st = (Raised IndexError, st') /\
    globals st' = globals st /\
    heap st' !! lo = Some (NDArray (<[0%nat := delta]> data)).
Proof.
  intros Hob Hho Hlen.
  destruct data as [|a [|b data]]; [| |cbn [length] in Hlen; lia].
  - exists st. split; [|split; [reflexivity | exact Hho]].
    unfold shock_store.
    rewrite (bind_returned _ _ st (VRef lo) st)
      by (unfold load_global; now rewrite Hob).
    apply bind_raised.
    eapply setitem_array_beyond; [exact Hho | cbn [length]; lia].
  - eexists. split; [|split].
    + unfold shock_store.
      rewrite (bind_returned _ _ st (VRef lo) st)
        by (unfold load_global; now rewrite Hob).
      erewrite bind_returned; cycle 1.
      { eapply setitem_array; [exact Hho | reflexivity]. }
      erewrite bind_returned; cycle 1.
      { unfold load_global. cbn [set_heap globals]. rewrite Hob. reflexivity. }
      apply bind_raised.
      eapply setitem_array_beyond.
      * cbn [set_heap heap]. apply lookup_insert_eq.
      * rewrite length_insert. cbn [length]. lia.
    + reflexivity.
    + cbn [set_heap heap]. apply lookup_insert_eq.
Qed.

Lemma X7_short_result_buffer_witness :
  exists st',
    shock_store 0.5 2 (module_state 3.0 30 1.4 [7]) = (Raised IndexError, st') /\
    globals st' = globals (module_state 3.0 30 1.4 [7]) /\
    heap st' !! 1%nat = Some (NDArray (<[0%nat := 0.5]> [7])).
Proof.
  apply (X7_short_result_buffer (module_state 3.0 30 1.4 [7]) 1%nat [7] 0.5 2).
  - reflexivity.
  - reflexivity.
  - cbn [length]. lia.
Defined.

(** ** The velocity components of the field evaluator *)

Lemma sqrt_inv_one_plus_tan_sqr x :
  cos x <> 0 -> sqrt (1.0 / (1.0 + tan x ^ 2)) = Rabs (cos x).
Proof.
  intros Hc.
  replace (1.0 / (1.0 + tan x ^ 2)) with ((cos x)²).
  - apply sqrt_Rsqr_abs.
  - assert (Hsc := sin2_cos2 x). unfold Rsqr in *. unfold tan.
    replace 1.0 with 1 by lra.
    assert (Hc2 : cos x * cos x <> 0) by (apply Rmult_integral_contrapositive_currified; assumption).
    apply Rmult_eq_reg_r with (1 + (sin x / cos x) ^ 2).
    + replace (1 / (1 + (sin x / cos x) ^ 2) * (1 + (sin x / cos x) ^ 2)) with 1.
      * replace (1 + (sin x / cos x) ^ 2)
          with ((sin x * sin x + cos x * cos x) / (cos x * cos x)) by (field; assumption).
        rewrite Hsc. field. assumption.
      * field. split; [assumption|].
        replace (cos x ^ 2 + sin x ^ 2) with (sin x * sin x + cos x * cos x) by ring.
        rewrite Hsc. lra.
    + replace (1 + (sin x / cos x) ^ 2)
        with ((sin x * sin x + cos x * cos x) / (cos x * cos x)) by (field; assumption).
      rewrite Hsc. apply Rgt_not_eq. 
      apply Rdiv_lt_0_compat; [lra|].
      destruct (Rtotal_order (cos x) 0) as [H|[H|H]]; [nra | contradiction | nra].
Qed.

Lemma field_speed_sqr gamma m2 :
  1 < gamma -> m2 <> 0 ->
  Field.v_nondim gamma m2 ^ 2 = (gamma - 1) * m2 ^ 2 / (2 + (gamma - 1) * m2 ^ 2) /\
  0 < Field.v_nondim gamma m2 < 1.
Proof.
  intros Hg Hm.
  assert (H10 : 1.0 = 1) by lra. assert (H20 : 2.0 = 2) by lra.
  unfold Field.v_nondim. rewrite !H10, !H20.
  assert (Hm2 : 0 < m2 ^ 2) by (assert (0 < m2 * m2) by nra; nra).
  set (M := m2 ^ 2) in *. clearbody M.
  assert (Hr : 0 < 2 / (gamma - 1) / M).
  { apply Rdiv_lt_0_compat; [|exact Hm2]. apply Rdiv_lt_0_compat; lra. }
  assert (Hs : 0 < sqrt (2 / (gamma - 1) / M + 1)) by (apply sqrt_lt_R0; lra).
  assert (Hs2 : sqrt (2 / (gamma - 1) / M + 1) ^ 2 = 2 / (gamma - 1) / M + 1)
    by (apply pow2_sqrt; lra).
  assert (Hs1 : 1 < sqrt (2 / (gamma - 1) / M + 1)).
  { rewrite <- sqrt_1 at 1. apply sqrt_lt_1_alt. lra. }
  set (s := sqrt (2 / (gamma - 1) / M + 1)) in *.
  split.
  - replace ((1 / s) ^ 2) with (1 / s ^ 2) by (field; lra).
    rewrite Hs2. field. split; [|split]; try lra. nra.
  - split.
    + apply Rdiv_lt_0_compat; lra.
    + apply Rmult_lt_reg_r with s; [lra|].
      unfold Rdiv. rewrite Rmult_assoc, Rinv_l by lra. lra.
Qed.

(** X8.  On a ray within a right angle of the shock
    ([-pi/2 < setup.beta - delta < pi/2]) the two components computed by
    the field evaluator are the speed resolved along and across the ray:
    [v_nondim_r = v_nondim * cos(setup.beta - delta)] and
    [v_nondim_theta = v_nondim * sin(setup.beta - delta)]. *)
Theorem X8_components_resolve_the_speed beta delta v :
  - (PI / 2) < beta - delta < PI / 2 ->
  Field.v_nondim_r beta delta v = v * cos (beta - delta) /\
  Field.v_nondim_theta beta delta (Field.v_nondim_r beta delta v)
  = v * sin (beta - delta).
Proof.
  intros [Hlo Hhi].
  assert (Hc : 0 < cos (beta - delta)) by (apply cos_gt_0; lra).
  assert (Hr : Field.v_nondim_r beta delta v = v * cos (beta - delta)).
  { unfold Field.v_nondim_r.
    rewrite sqrt_inv_one_plus_tan_sqr by lra.
    rewrite Rabs_pos_eq by lra. reflexivity. }
  split; [exact Hr|].
  unfold Field.v_nondim_theta. rewrite Hr. unfold tan. field. lra.
Qed.

Lemma X8_components_resolve_the_speed_witness :
  Field.v_nondim_r (60 * PI / 180) (PI / 6) 1 = 1 * cos (60 * PI / 180 - PI / 6) /\
  Field.v_nondim_theta (60 * PI / 180) (PI / 6) (Field.v_nondim_r (60 * PI / 180) (PI / 6) 1)
  = 1 * sin (60 * PI / 180 - PI / 6).
Proof.
  apply (X8_components_resolve_the_speed (60 * PI / 180) (PI / 6) 1).
  assert (Hpi := PI_RGT_0). lra.
Defined.

(** X9.  For a ratio of specific heats above 1 and a non-zero Mach number
    the speed computed by the field evaluator is the energy-equation value
    [v^2 = (gamma-1) m2^2 / (2 + (gamma-1) m2^2)], it lies strictly between
    0 and 1, and the squares of the two components add up to its square,
    whatever the two angles. *)
Theorem X9_speed_from_mach_number gamma beta delta m2 :
  1 < gamma -> m2 <> 0 ->
  let v := Field.v_nondim gamma m2 in
  let v_r := Field.v_nondim_r beta delta v in
  let v_theta := Field.v_nondim_theta beta delta v_r in
  v ^ 2 = (gamma - 1) * m2 ^ 2 / (2 + (gamma - 1) * m2 ^ 2) /\
  0 < v < 1 /\
  v_r ^ 2 + v_theta ^ 2 = v ^ 2.
Proof.
  intros Hg Hm. cbv zeta.
  destruct (field_speed_sqr gamma m2 Hg Hm) as [Hsq Hv].
  destruct (initial_state_within_energy_bound gamma beta delta m2 Hg Hm) as [He _].
  cbv zeta in He.
  split; [exact Hsq | split; [exact Hv | exact He]].
Qed.

Lemma X9_speed_from_mach_number_witness :
  Field.v_nondim 1.4 2 ^ 2 = (1.4 - 1) * 2 ^ 2 / (2 + (1.4 - 1) * 2 ^ 2) /\
  0 < Field.v_nondim 1.4 2 < 1.
Proof.
  destruct (X9_speed_from_mach_number 1.4 (PI / 3) (PI / 6) 2) as (H1 & H2 & _).
  - lra.
  - lra.
  - split; [exact H1 | exact H2].
Defined.

(** X10.  For a ratio of specific heats above 1, a non-zero Mach number
    and a ray not at a right angle to the shock, the divisor of the
    Taylor-Maccoll quotient is
    [(gamma-1) ((m2 sin(setup.beta-delta))^2 - 1) / (2 + (gamma-1) m2^2)]:
    it vanishes exactly where the Mach number across the ray is 1 and is
    negative exactly where that Mach number is below 1. *)
Theorem X10_divisor_and_cross_mach_number gamma beta delta m2 :
  1 < gamma -> m2 <> 0 -> cos (beta - delta) <> 0 ->
  let v := Field.v_nondim gamma m2 in
  let v_r := Field.v_nondim_r beta delta v in
  let v_theta := Field.v_nondim_theta beta delta v_r in
  let cross := m2 * sin (beta - delta) in
  Field.tm2_den gamma v v_theta
  = (gamma - 1) * (cross ^ 2 - 1) / (2 + (gamma - 1) * m2 ^ 2) /\
  (Field.tm2_den gamma v v_theta = 0 <-> cross ^ 2 = 1) /\
  (Field.tm2_den gamma v v_theta < 0 <-> cross ^ 2 < 1).
Proof.
  intros Hg Hm Hc. cbv zeta.
  destruct (field_speed_sqr gamma m2 Hg Hm) as [Hsq Hv].
  assert (Hm2 : 0 < m2 ^ 2) by (assert (0 < m2 * m2) by nra; nra).
  assert (HD : 0 < 2 + (gamma - 1) * m2 ^ 2) by nra.
  set (x := beta - delta) in *.
  assert (Hth : Field.v_nondim_theta beta delta
                  (Field.v_nondim_r beta delta (Field.v_nondim gamma m2)) ^ 2
                = Field.v_nondim gamma m2 ^ 2 * sin x ^ 2).
  { unfold Field.v_nondim_theta, Field.v_nondim_r. fold x.
    rewrite sqrt_inv_one_plus_tan_sqr by exact Hc.
    replace ((Field.v_nondim gamma m2 * Rabs (cos x) * tan x) ^ 2)
      with (Field.v_nondim gamma m2 ^ 2 * (Rabs (cos x) * Rabs (cos x)) * tan x ^ 2) by ring.
    rewrite <- Rabs_mult, Rabs_pos_eq by nra.
    unfold tan. field. exact Hc. }
  assert (Heq : Field.tm2_den gamma (Field.v_nondim gamma m2)
                  (Field.v_nondim_theta beta delta
                     (Field.v_nondim_r beta delta (Field.v_nondim gamma m2)))
                = (gamma - 1) * ((m2 * sin x) ^ 2 - 1) / (2 + (gamma - 1) * m2 ^ 2)).
  { unfold Field.tm2_den. rewrite Hth, Hsq.
    replace 0.5 with (1 / 2) by lra. field. lra. }
  split; [exact Heq|]. rewrite Heq.
  set (q := (m2 * sin x) ^ 2) in *.
  assert (Hinv : 0 < / (2 + (gamma - 1) * m2 ^ 2)) by (apply Rinv_0_lt_compat; lra).
  unfold Rdiv. split; split; intros H.
  - assert (H' : (gamma - 1) * (q - 1) = 0).
    { apply Rmult_eq_reg_r with (/ (2 + (gamma - 1) * m2 ^ 2)); [|lra]. lra. }
    nra.
  - rewrite H. lra.
  - assert (H' : (gamma - 1) * (q - 1) < 0).
    { apply Rmult_lt_reg_r with (/ (2 + (gamma - 1) * m2 ^ 2)); [lra|]. lra. }
    nra.
  - assert (H' : (gamma - 1) * (q - 1) < 0) by nra.
    replace 0 with (0 * / (2 + (gamma - 1) * m2 ^ 2)) by ring.
    apply Rmult_lt_compat_r; assumption.
Qed.

Lemma X10_divisor_and_cross_mach_number_witness :
  Field.tm2_den 1.4 (Field.v_nondim 1.4 2)
    (Field.v_nondim_theta (60 * PI / 180) (PI / 6)
       (Field.v_nondim_r (60 * PI / 180) (PI / 6) (Field.v_nondim 1.4 2)))
  = (1.4 - 1) * ((2 * sin (60 * PI / 180 - PI / 6)) ^ 2 - 1) / (2 + (1.4 - 1) * 2 ^ 2).
Proof.
  apply (X10_divisor_and_cross_mach_number 1.4 (60 * PI / 180) (PI / 6) 2).
  - lra.
  - lra.
  - replace (60 * PI / 180 - PI / 6) with (PI / 6) by lra.
    rewrite cos_PI6. assert (H := sqrt3_bounds). lra.
Defined.

(** ** The field evaluator past the solver call *)

Lemma setup_not_at_fresh st m1 beta gamma :
  setup_is st m1 beta gamma ->
  globals st !! "setup" <> Some (VRef (fresh (dom (heap st)))).
Proof.
  intros (l & attrs & Hg & Hh & _) Heq.
  rewrite Hg in Heq. injection Heq as ->.
  assert (Hin : fresh (dom (heap st)) ∈ dom (heap st)) by (apply elem_of_dom; eauto).
  exact (is_fresh _ Hin).
Qed.

(** Once the nested solver call has returned the module's array, the rest
    of the body runs up to the last assignment and stops there: on the name
    [gamma] if the module does not bind it, on the index 2 if it binds it
    to a float.  Names and the solver's array are as the solver left them. *)
Lemma taylor_maccoll_past_solver delta m2 st st1 lo data m1 beta gamma :
  oblique_shock_wave st = (Returned (VRef lo), st1) ->
  setup_is st1 m1 beta gamma ->
  gamma - 1 <> 0 ->
  heap st1 !! lo = Some (NDArray data) ->
  (0 < length data)%nat ->
  exists st',
    globals st' = globals st1 /\
    heap st' !! lo = Some (NDArray data) /\
    (globals st1 !! "gamma" = None ->
     taylor_maccoll delta m2 st = (Raised (NameError "gamma"), st')) /\
    (forall g, globals st1 !! "gamma" = Some (VFloat g) ->
     taylor_maccoll delta m2 st = (Raised IndexError, st')).
Proof.
  intros Hsolve Hs Hg Hlo Hlen.
  destruct data as [|d0 data]; [cbn in Hlen; lia|].
  set (l := fresh (dom (heap st1))).
  assert (Hfresh : heap st1 !! l = None).
  { apply not_elem_of_dom. apply is_fresh. }
  assert (Hllo : l <> lo) by (intros ->; congruence).
  assert (Hsl : globals st1 !! "setup" <> Some (VRef l))
    by (apply (setup_not_at_fresh st1 m1 beta gamma Hs)).
  set (st2 := set_heap (<[l := NDArray (replicate 2 0)]> (heap st1)) st1).
  assert (Hs2 : setup_is st2 m1 beta gamma) by (now apply setup_is_other_object).
  set (v := Field.v_nondim gamma m2).
  set (v_r := Field.v_nondim_r beta delta v).
  set (v_theta := Field.v_nondim_theta beta delta v_r).
  set (st3 := set_heap (<[l := NDArray (<[0%nat := d0]> (replicate 2 0))]> (heap st2)) st2).
  set (st4 := set_heap (<[l := NDArray (<[1%nat := v_theta]> (<[0%nat := d0]> (replicate 2 0)))]>
                          (heap st3)) st3).
  assert (Hprefix :
            taylor_maccoll delta m2 st
            = (gamma' <- load_float "gamma" ;;
               setitem (VRef l) 2 (Field.tm2 gamma' delta v v_r v_theta) ;;;
               ret (VRef l)) st4).
  { unfold taylor_maccoll.
    rewrite (bind_returned _ _ _ _ _ Hsolve).
    rewrite (bind_returned _ _ st1 (VRef l) st2) by reflexivity.
    rewrite (bind_returned _ _ _ _ _ (setup_attr_gamma _ _ _ _ Hs2)).
    rewrite (bind_returned _ _ _ _ _ (float_divisor_nonzero _ _ Hg)).
    rewrite (bind_returned _ _ _ _ _ (setup_attr_beta _ _ _ _ Hs2)).
    rewrite (bind_returned _ _ _ _ _ (setup_attr_beta _ _ _ _ Hs2)).
    erewrite bind_returned; cycle 1.
    { eapply getitem_array.
      - unfold st2. cbn [set_heap heap]. rewrite lookup_insert_ne by exact Hllo. exact Hlo.
      - reflexivity.
      - reflexivity. }
    erewrite bind_returned; cycle 1.
    { eapply setitem_array.
      - unfold st2. cbn [set_heap heap]. apply lookup_insert_eq.
      - reflexivity. }
    erewrite bind_returned; cycle 1.
    { eapply setitem_array.
      - cbn [set_heap heap]. apply lookup_insert_eq.
      - reflexivity. }
    reflexivity. }
  exists st4. split; [reflexivity|]. split.
  { unfold st4, st3, st2. cbn [set_heap heap].
    rewrite !lookup_insert_ne by exact Hllo. exact Hlo. }
  split.
  - intros Hn. rewrite Hprefix.
    apply bind_raised. unfold load_float. apply bind_raised.
    unfold load_global. change (globals st4) with (globals st1). now rewrite Hn.
  - intros g Hb. rewrite Hprefix.
    erewrite bind_returned; cycle 1.
    { unfold load_float. erewrite bind_returned; cycle 1.
      { unfold load_global. change (globals st4) with (globals st1). rewrite Hb. reflexivity. }
      reflexivity. }
    apply bind_raised. eapply setitem_array_beyond.
    + unfold st4. cbn [set_heap heap]. apply lookup_insert_eq.
    + rewrite !length_insert. cbn [length replicate]. lia.
Qed.

Lemma solver_then_field_state st m1 beta gamma lt attrs_t lo data :
  setup_is st m1 beta gamma ->
  gamma + 1 <> 0 ->
  m1 ^ 2 <= float_max ->
  globals st !! "tem2_tesetup" = Some (VRef lt) ->
  heap st !! lt = Some (Instance attrs_t) ->
  globals st !! "setup" <> Some (VRef lt) ->
  globals st !! "ob" = Some (VRef lo) ->
  heap st !! lo = Some (NDArray data) ->
  length data = 2%nat ->
  exists st1,
    oblique_shock_wave st = (Returned (VRef lo), st1) /\
    globals st1 = globals st /\
    setup_is st1 m1 beta gamma /\
    heap st1 !! lo = Some (NDArray [shock_delta m1 beta gamma; shock_m2 m1 beta gamma]).
Proof.
  intros Hs Hg Hrange Ht Hht Hne Hob Hho Hlen.
  eexists. split; [eapply oblique_shock_wave_returns; eassumption|].
  split; [reflexivity|]. split.
  - destruct Hs as (l & attrs & Hgl & Hh & Hm & Hb & Hc).
    exists l, attrs. cbn [set_heap globals heap].
    assert (lt <> l) by congruence.
    assert (lo <> l) by congruence.
    rewrite !lookup_insert_ne by assumption. now repeat split.
  - cbn [set_heap heap]. apply lookup_insert_eq.
Qed.

(** X11.  In a state where the solver call runs to its end (the name
    [tem2_tesetup] bound to an instance of its own, [ob] an array of two
    entries, [setup.m1**2] in the float range) and the module binds no name
    [gamma], [taylor_maccoll] stops at its last assignment with [NameError]
    for [gamma]: the right-hand side is evaluated before the store into
    [tm[2]].  This holds for every [delta] and for every [m2] whose square
    is in the float range and not zero, so for a Python float as for a
    numpy scalar.  By then the solver has written into the module's array;
    for a valid configuration the array holds [delta] and [m2] of the
    solver's formulas. *)
Theorem X11_field_evaluator_stops_on_gamma
    delta m2 st m1 beta gamma lt attrs_t lo data :
  setup_is st m1 beta gamma ->
  gamma + 1 <> 0 ->
  gamma - 1 <> 0 ->
  m1 ^ 2 <= float_max ->
  float_range (m2 ^ 2) ->
  globals st !! "tem2_tesetup" = Some (VRef lt) ->
  heap st !! lt = Some (Instance attrs_t) ->
  globals st !! "setup" <> Some (VRef lt) ->
  globals st !! "ob" = Some (VRef lo) ->
  heap st !! lo = Some (NDArray data) ->
  length data = 2%nat ->
  globals st !! "gamma" = None ->
  exists st',
    taylor_maccoll delta m2 st = (Raised (NameError "gamma"), st') /\
    (valid_configuration m1 beta gamma ->
     heap st' !! lo = Some (NDArray [shock_delta m1 beta gamma; shock_m2 m1 beta gamma])).
Proof.
  intros Hs Hg Hg1 Hm Hm2 Ht Hht Hne Hob Hho Hlen Hgam.
  destruct (solver_then_field_state st m1 beta gamma lt attrs_t lo data
              Hs Hg Hm Ht Hht Hne Hob Hho Hlen) as (st1 & Hrun & Hgl & Hs1 & Hlo1).
  destruct (taylor_maccoll_past_solver delta m2 st st1 lo _ m1 beta gamma
              Hrun Hs1 Hg1 Hlo1) as (st' & _ & Hlo' & Hname & _).
  { cbn [length]. lia. }
  exists st'. split; [|intros _; exact Hlo'].
  apply Hname. now rewrite Hgl.
Qed.

Lemma float_range_4 : float_range (2 ^ 2).
Proof.
  assert (H := small_square_in_range 2 ltac:(lra)).
  assert (Hp : 0 < float_max) by lra.
  unfold float_range. split; [|exact H].
  assert (Hi := Rinv_le_contravar 4 float_max ltac:(lra) ltac:(lra)). lra.
Qed.

Lemma X11_field_evaluator_stops_on_gamma_witness :
  exists st',
    taylor_maccoll 0.2 2 (scratch_state 3.0 30 1.4 [0; 0])
    = (Raised (NameError "gamma"), st') /\
    heap st' !! 1%nat
    = Some (NDArray [shock_delta 3.0 (30 * PI / 180) 1.4; shock_m2 3.0 (30 * PI / 180) 1.4]).
Proof.
  destruct (X11_field_evaluator_stops_on_gamma 0.2 2
              (scratch_state 3.0 30 1.4 [0; 0]) 3.0 (30 * PI / 180) 1.4 2%nat ∅ 1%nat [0; 0])
    as (st' & Hrun & Hob).
  - apply scratch_state_setup.
  - lra.
  - lra.
  - apply small_square_in_range. lra.
  - apply float_range_4.
  - reflexivity.
  - reflexivity.
  - discriminate.
  - reflexivity.
  - reflexivity.
  - reflexivity.
  - reflexivity.
  - exists st'. split; [exact Hrun|]. apply Hob.
    split; [lra|]. split; [lra|]. apply notebook_shock_angle_is_valid.
Defined.

Lemma scratch_state_with_gamma_setup m1 beta gamma ob g :
  setup_is (scratch_state_with_gamma m1 beta gamma ob g) m1 (beta * PI / 180) gamma.
Proof.
  exists 0%nat, (InitialConditions m1 beta gamma).
  repeat split; reflexivity.
Qed.

(** X12.  In such a state with the name [gamma] bound to a float as well,
    [taylor_maccoll] stops at the store of its last assignment with
    [IndexError]: [tm] has two entries and the index is 2.  So the call
    returns in no state of this kind either.  As in X11, [m2**2] is in the
    float range and not zero. *)
Theorem X12_field_evaluator_stops_on_index
    delta m2 st m1 beta gamma lt attrs_t lo data g :
  setup_is st m1 beta gamma ->
  gamma + 1 <> 0 ->
  gamma - 1 <> 0 ->
  m1 ^ 2 <= float_max ->
  float_range (m2 ^ 2) ->
  globals st !! "tem2_tesetup" = Some (VRef lt) ->
  heap st !! lt = Some (Instance attrs_t) ->
  globals st !! "setup" <> Some (VRef lt) ->
  globals st !! "ob" = Some (VRef lo) ->
  heap st !! lo = Some (NDArray data) ->
  length data = 2%nat ->
  globals st !! "gamma" = Some (VFloat g) ->
  exists st',
    taylor_maccoll delta m2 st = (Raised IndexError, st') /\
    (valid_configuration m1 beta gamma ->
     heap st' !! lo = Some (NDArray [shock_delta m1 beta gamma; shock_m2 m1 beta gamma])).
Proof.
  intros Hs Hg Hg1 Hm Hm2 Ht Hht Hne Hob Hho Hlen Hgam.
  destruct (solver_then_field_state st m1 beta gamma lt attrs_t lo data
              Hs Hg Hm Ht Hht Hne Hob Hho Hlen) as (st1 & Hrun & Hgl & Hs1 & Hlo1).
  destruct (taylor_maccoll_past_solver delta m2 st st1 lo _ m1 beta gamma
              Hrun Hs1 Hg1 Hlo1) as (st' & _ & Hlo' & _ & Hindex).
  { cbn [length]. lia. }
  exists st'. split; [|intros _; exact Hlo'].
  apply (Hindex g). now rewrite Hgl.
Qed.

Lemma X12_field_evaluator_stops_on_index_witness :
  exists st',
    taylor_maccoll 0.2 2 (scratch_state_with_gamma 3.0 30 1.4 [0; 0] 1.4)
    = (Raised IndexError, st') /\
    heap st' !! 1%nat
    = Some (NDArray [shock_delta 3.0 (30 * PI / 180) 1.4; shock_m2 3.0 (30 * PI / 180) 1.4]).
Proof.
  destruct (X12_field_evaluator_stops_on_index 0.2 2
              (scratch_state_with_gamma 3.0 30 1.4 [0; 0] 1.4)
              3.0 (30 * PI / 180) 1.4 2%nat ∅ 1%nat [0; 0] 1.4)
    as (st' & Hrun & Hob).
  - apply scratch_state_with_gamma_setup.
  - lra.
  - lra.
  - apply small_square_in_range. lra.
  - apply float_range_4.
  - reflexivity.
  - reflexivity.
  - discriminate.
  - reflexivity.
  - reflexivity.
  - reflexivity.
  - reflexivity.
  - exists st'. split; [exact Hrun|]. apply Hob.
    split; [lra|]. split; [lra|]. apply notebook_shock_angle_is_valid.
Defined.

(** ** The Runge-Kutta increment on test problems *)

Lemma rk4_float_pure (f : R -> R -> R) dx x y st :
  rk4 (pure_fn f) dx x y st
  = (Returned
       ((dx * f x y
         + 2 * (dx * f (x + dx / 2) (y + dx * f x y / 2))
         + 2 * (dx * f (x + dx / 2)
                       (y + dx * f (x + dx / 2) (y + dx * f x y / 2) / 2))
         + dx * f (x + dx)
                  (y + dx * f (x + dx / 2)
                              (y + dx * f (x + dx / 2) (y + dx * f x y / 2) / 2)))
        / 6), st).
Proof.
  unfold rk4, pure_fn, bind, ret. cbn [vadd vscale vdiv float_space].
  replace (x + 0.5 * dx) with (x + dx / 2) by lra.
  replace (x + 1.0 * dx) with (x + dx) by lra.
  replace (0.5 * (dx * f x y)) with (dx * f x y / 2) by lra.
  set (k2 := f (x + dx / 2) (y + dx * f x y / 2)).
  replace (0.5 * (dx * k2)) with (dx * k2 / 2) by lra.
  set (k3 := f (x + dx / 2) (y + dx * k2 / 2)).
  replace (1.0 * (dx * k3)) with (dx * k3) by lra.
  do 2 f_equal. lra.
Qed.

(** X13.  For a slope that depends on the independent variable alone and
    is a polynomial of degree at most four, the increment [rk4] returns is
    the exact integral of the slope over the step plus [a4 * dx**5 / 120]:
    it is exact up to degree three (Simpson's rule), for every step, signed
    or zero, and whatever the state [y]. *)
Theorem X13_rk4_integrates_cubics_exactly (a0 a1 a2 a3 a4 dx x y : R) (st : state) :
  rk4 (pure_fn (fun t (_ : R) => quartic a0 a1 a2 a3 a4 t)) dx x y st
  = (Returned (quartic_primitive a0 a1 a2 a3 a4 (x + dx)
               - quartic_primitive a0 a1 a2 a3 a4 x
               + a4 * dx ^ 5 / 120), st).
Proof.
  rewrite rk4_float_pure. do 2 f_equal.
  unfold quartic, quartic_primitive. field.
Qed.

(** X14.  On the linear test equation [y' = lam * y] the increment is
    [y * (z + z**2/2 + z**3/6 + z**4/24)] with [z = lam * dx]: the state
    plus the increment is [y] times the Taylor polynomial of degree four of
    the exponential at [z]. *)
Theorem X14_rk4_linear_test_equation (lam dx x y : R) (st : state) :
  let z := lam * dx in
  rk4 (pure_fn (fun (_ : R) v => lam * v)) dx x y st
  = (Returned (y * (z + z ^ 2 / 2 + z ^ 3 / 6 + z ^ 4 / 24)), st).
Proof.
  cbv zeta. rewrite rk4_float_pure. do 2 f_equal. field.
Qed.

(** X15.  A state at which the slope vanishes at every position is kept:
    the increment [rk4] returns there is 0, for every step. *)
Theorem X15_rk4_keeps_an_equilibrium (f : R -> R -> R) (dx x y : R) (st : state) :
  (forall t, f t y = 0) ->
  rk4 (pure_fn f) dx x y st = (Returned 0, st).
Proof.
  intros Heq. rewrite rk4_float_pure.
  rewrite (Heq x).
  replace (y + dx * 0 / 2) with y by lra.
  rewrite (Heq (x + dx / 2)).
  replace (y + dx * 0 / 2) with y by lra.
  rewrite (Heq (x + dx / 2)).
  replace (y + dx * 0) with y by lra.
  rewrite (Heq (x + dx)).
  do 2 f_equal. lra.
Qed.

Lemma X15_rk4_keeps_an_equilibrium_witness :
  rk4 (pure_fn (fun t v => (1 + t ^ 2) * v * (1 - v))) 0.1 0 1 (array_state [])
  = (Returned 0, array_state []).
Proof.
  apply (X15_rk4_keeps_an_equilibrium
           (fun t v => (1 + t ^ 2) * v * (1 - v)) 0.1 0 1 (array_state [])).
  intros t. lra.
Defined.

(** X16.  [rk4] writes nothing of its own: with a slope function that only
    reads the state, the whole step leaves the state as it found it,
    whether it returns or raises. *)
Theorem X16_rk4_writes_nothing {V} {S : StateSpace V}
    (f : R -> V -> py V) (dx x : R) (y : V) :
  (forall t v, reads_only (f t v)) ->
  reads_only (rk4 f dx x y).
Proof.
  intros Hf. unfold rk4.
  apply reads_only_bind; [apply Hf|]. intros f1.
  apply reads_only_bind; [apply Hf|]. intros f2.
  apply reads_only_bind; [apply Hf|]. intros f3.
  apply reads_only_bind; [apply Hf|]. intros f4.
  apply reads_only_ret.
Qed.

Lemma X16_rk4_writes_nothing_witness :
  reads_only (rk4 (fun (_ : R) (v : R) => g <- load_float "gamma" ;; ret (g * v)) 0.1 0 1).
Proof.
  apply (X16_rk4_writes_nothing
           (fun (_ : R) (v : R) => g <- load_float "gamma" ;; ret (g * v)) 0.1 0 1).
  intros t v. apply reads_only_bind.
  - apply reads_only_load_float.
  - intros g. apply reads_only_ret.
Defined.

(** ** The finite difference at and beyond the ends of the array *)

Lemma getitem_within st l data k :
  heap st !! l = Some (NDArray data) ->
  (- Z.of_nat (length data) <= k < Z.of_nat (length data))%Z ->
  getitem (VRef l) k st = (Returned (entry data k), st).
Proof.
  intros Hh Hk. unfold entry.
  destruct (Z_lt_le_dec k 0) as [Hneg|Hpos].
  - assert (Hmod : (k mod Z.of_nat (length data) = Z.of_nat (length data) + k)%Z).
    { symmetry. apply (Z.mod_unique_pos k _ (-1)); lia. }
    rewrite Hmod.
    assert (Hlt : (Z.to_nat (Z.of_nat (length data) + k) < length data)%nat) by lia.
    destruct (lookup_lt_is_Some_2 data _ Hlt) as [v Hv].
    rewrite (nth_lookup_Some _ _ 0 _ Hv).
    eapply getitem_array; [exact Hh| |exact Hv].
    unfold index_of.
    assert (H1 : (0 <=? k)%Z = false) by (apply Z.leb_gt; lia).
    assert (H2 : (- Z.of_nat (length data) <=? k)%Z = true) by (apply Z.leb_le; lia).
    assert (H3 : (k <? 0)%Z = true) by (apply Z.ltb_lt; lia).
    now rewrite H1, H2, H3.
  - rewrite Z.mod_small by lia.
    assert (Hlt : (Z.to_nat k < length data)%nat) by lia.
    destruct (lookup_lt_is_Some_2 data _ Hlt) as [v Hv].
    rewrite (nth_lookup_Some _ _ 0 _ Hv).
    eapply getitem_array; [exact Hh| |exact Hv].
    apply index_of_front. lia.
Qed.

Lemma getitem_outside st l data k :
  heap st !! l = Some (NDArray data) ->
  (k < - Z.of_nat (length data) \/ Z.of_nat (length data) <= k)%Z ->
  getitem (VRef l) k st = (Raised IndexError, st).
Proof.
  intros Hh Hk. unfold getitem. rewrite Hh.
  assert (Hi : index_of (length data) k = None).
  { destruct Hk as [Hk|Hk]; [|now apply index_of_beyond].
    unfold index_of.
    assert (H1 : (0 <=? k)%Z = false) by (apply Z.leb_gt; lia).
    assert (H2 : (- Z.of_nat (length data) <=? k)%Z = false) by (apply Z.leb_gt; lia).
    now rewrite H1, H2. }
  now rewrite Hi.
Qed.

Lemma getitem_either st l data k :
  heap st !! l = Some (NDArray data) ->
  getitem (VRef l) k st = (Raised IndexError, st) \/
  getitem (VRef l) k st = (Returned (entry data k), st).
Proof.
  intros Hh.
  destruct (Z_lt_le_dec k (- Z.of_nat (length data))) as [Hlow|Hlow].
  { left. apply (getitem_outside _ _ data); [exact Hh | lia]. }
  destruct (Z_lt_le_dec k (Z.of_nat (length data))) as [Hup|Hup].
  - right. apply getitem_within; [exact Hh | lia].
  - left. apply (getitem_outside _ _ data); [exact Hh | lia].
Qed.

(** X17.  For every index [i] with [1 - n <= i <= n - 2] on an array of [n]
    entries, negative ones included, [central_differences] returns and
    leaves the state alone; the three entries it combines are taken
    cyclically.  At [i = 0] the entry before [y[0]] is the last one of the
    array, and at [i = -1] the entry after [y[-1]] is the first one. *)
Theorem X17_central_differences_reads_cyclically st l data (i : Z) (x : R) :
  heap st !! l = Some (NDArray data) ->
  (1 - Z.of_nat (length data) <= i <= Z.of_nat (length data) - 2)%Z ->
  central_differences i x (VRef l) st
  = (Returned ((entry data (i + 1) - 2 * entry data i + entry data (i - 1))
               / float_eps), st).
Proof.
  intros Hh Hi. unfold central_differences.
  erewrite bind_returned; cycle 1.
  { apply getitem_within; [exact Hh | lia]. }
  erewrite bind_returned; cycle 1.
  { apply getitem_within; [exact Hh | lia]. }
  erewrite bind_returned; cycle 1.
  { apply getitem_within; [exact Hh | lia]. }
  unfold ret. now rewrite sqrt_float_eps_sqr.
Qed.

Lemma X17_central_differences_reads_cyclically_witness :
  central_differences 0 7 (VRef 0%nat) (array_state [1; 4; 9; 16])
  = (Returned ((4 - 2 * 1 + 16) / float_eps), array_state [1; 4; 9; 16]).
Proof.
  apply (X17_central_differences_reads_cyclically
           (array_state [1; 4; 9; 16]) 0%nat [1; 4; 9; 16] 0 7).
  - reflexivity.
  - cbn [length]. lia.
Defined.

(** X18.  For every other index that numpy takes, [i < 1 - n] or
    [i > n - 2] with [i - 1] and [i + 1] fitting a machine word, the call
    raises [IndexError] and leaves the state alone; on an array of fewer
    than two entries these are all such indices. *)
Theorem X18_central_differences_index_error st l data (i : Z) (x : R) :
  heap st !! l = Some (NDArray data) ->
  fits_index (i - 1) ->
  fits_index (i + 1) ->
  (i < 1 - Z.of_nat (length data) \/ Z.of_nat (length data) - 2 < i)%Z ->
  central_differences i x (VRef l) st = (Raised IndexError, st).
Proof.
  intros Hh _ _ Hi. unfold central_differences.
  destruct (getitem_either st l data (i + 1) Hh) as [E1|E1];
    [now apply bind_raised|].
  rewrite (bind_returned _ _ _ _ _ E1).
  destruct (getitem_either st l data i Hh) as [E2|E2];
    [now apply bind_raised|].
  rewrite (bind_returned _ _ _ _ _ E2).
  apply bind_raised.
  destruct (Z_lt_le_dec (i - 1) (- Z.of_nat (length data))) as [Hlow|Hlow].
  { apply (getitem_outside _ _ data); [exact Hh | lia]. }
  assert (Hup : (Z.of_nat (length data) <= i + 1)%Z) by lia.
  rewrite (getitem_outside st l data (i + 1) Hh) in E1 by lia.
  discriminate E1.
Qed.

Lemma X18_central_differences_index_error_witness :
  central_differences 2 7 (VRef 0%nat) (array_state [1; 4; 9])
  = (Raised IndexError, array_state [1; 4; 9]).
Proof.
  apply (X18_central_differences_index_error (array_state [1; 4; 9]) 0%nat [1; 4; 9] 2 7).
  - reflexivity.
  - unfold fits_index. lia.
  - unfold fits_index. lia.
  - cbn [length]. lia.
Defined.

(** X19.  On samples of a quadratic [a k**2 + b k + c] at the nodes
    [k = i-1, i, i+1] the value returned is [2 a / eps**2] with [eps**2]
    the machine epsilon: it does not depend on [b], on [c], on the node
    [i] or on the argument [x], and it is 0 on every arithmetic
    progression. *)
Theorem X19_central_differences_on_a_quadratic st l data (i : Z) (x a b c : R) :
  heap st !! l = Some (NDArray data) ->
  (1 <= i)%Z ->
  (forall k, (i - 1 <= k <= i + 1)%Z ->
             data !! Z.to_nat k = Some (a * IZR k ^ 2 + b * IZR k + c)) ->
  central_differences i x (VRef l) st = (Returned (2 * a / float_eps), st).
Proof.
  intros Hh Hi Hdata.
  assert (Hlen := lookup_lt_Some _ _ _ (Hdata (i + 1)%Z ltac:(lia))).
  assert (Hin : forall k, (0 <= k <= i + 1)%Z ->
                          index_of (length data) k = Some (Z.to_nat k)).
  { intros k Hk. apply index_of_front. lia. }
  unfold central_differences.
  erewrite bind_returned; cycle 1.
  { eapply getitem_array; [exact Hh | apply Hin; lia | apply Hdata; lia]. }
  erewrite bind_returned; cycle 1.
  { eapply getitem_array; [exact Hh | apply Hin; lia | apply Hdata; lia]. }
  erewrite bind_returned; cycle 1.
  { eapply getitem_array; [exact Hh | apply Hin; lia | apply Hdata; lia]. }
  unfold ret. rewrite sqrt_float_eps_sqr.
  do 2 f_equal. unfold Rdiv. f_equal. rewrite plus_IZR, minus_IZR. ring.
Qed.

Lemma X19_central_differences_on_a_quadratic_witness :
  central_differences 1 7 (VRef 0%nat) (array_state [1; 4; 9])
  = (Returned (2 * 1 / float_eps), array_state [1; 4; 9]).
Proof.
  apply (X19_central_differences_on_a_quadratic
           (array_state [1; 4; 9]) 0%nat [1; 4; 9] 1 7 1 2 1).
  - reflexivity.
  - lia.
  - intros k Hk.
    assert (Hcases : k = 0%Z \/ k = 1%Z \/ k = 2%Z) by lia.
    destruct Hcases as [->|[->| ->]].
    + change (Some 1 = Some (1 * 0 ^ 2 + 2 * 0 + 1)). f_equal. lra.
    + change (Some 4 = Some (1 * 1 ^ 2 + 2 * 1 + 1)). f_equal. lra.
    + change (Some 9 = Some (1 * 2 ^ 2 + 2 * 2 + 1)). f_equal. lra.
Defined.

(** ** Calling the solver again *)

(** X20.  Where the solver returns ([tem2_tesetup] bound to an instance
    other than [setup], [ob] an array of two entries, [gamma] other than
    -1, [setup.m1**2] in the float range), calling it again returns the
    same array object and changes nothing further: the second call finds
    the state the first one left and leaves it as it is.  The result is
    the module's array [ob] itself both times, not a copy. *)
Theorem X20_solver_call_is_repeatable st m1 beta gamma lt attrs_t lo data :
  setup_is st m1 beta gamma ->
  gamma + 1 <> 0 ->
  m1 ^ 2 <= float_max ->
  globals st !! "tem2_tesetup" = Some (VRef lt) ->
  heap st !! lt = Some (Instance attrs_t) ->
  globals st !! "setup" <> Some (VRef lt) ->
  globals st !! "ob" = Some (VRef lo) ->
  heap st !! lo = Some (NDArray data) ->
  length data = 2%nat ->
  exists st1,
    oblique_shock_wave st = (Returned (VRef lo), st1) /\
    oblique_shock_wave st1 = (Returned (VRef lo), st1) /\
    globals st1 !! "ob" = Some (VRef lo).
Proof.
  intros Hs Hg Hm Ht Hht Hne Hob Hho Hlen.
  assert (Hlolt : lo <> lt) by congruence.
  destruct (solver_then_field_state st m1 beta gamma lt attrs_t lo data
              Hs Hg Hm Ht Hht Hne Hob Hho Hlen) as (st1 & Hrun & Hgl & Hs1 & Hlo1).
  exists st1. split; [exact Hrun|]. split; [|now rewrite Hgl].
  rewrite (oblique_shock_wave_returns st m1 beta gamma lt attrs_t lo data
             Hs Hg Hm Ht Hht Hne Hob Hho Hlen) in Hrun.
  injection Hrun as Hst1.
  assert (Hlt1 : heap st1 !! lt
                 = Some (Instance (<["m1" := Shock.pre2_pre1 gamma (Shock.mn1 m1 beta)
                                            / Shock.rho2_rho1 gamma (Shock.mn1 m1 beta)]>
                                     attrs_t))).
  { rewrite <- Hst1. cbn [set_heap heap].
    rewrite lookup_insert_ne by exact Hlolt. apply lookup_insert_eq. }
  rewrite (oblique_shock_wave_returns st1 m1 beta gamma lt
             (<["m1" := Shock.pre2_pre1 gamma (Shock.mn1 m1 beta)
                        / Shock.rho2_rho1 gamma (Shock.mn1 m1 beta)]> attrs_t)
             lo [shock_delta m1 beta gamma; shock_m2 m1 beta gamma] Hs1 Hg Hm).
  - f_equal. rewrite insert_insert_eq.
    destruct st1 as [g1 h1]. unfold set_heap. cbn [globals heap] in *.
    f_equal. injection Hst1 as Hg1 Hh1. subst h1.
    rewrite (insert_insert_ne _ lt lo) by congruence.
    now rewrite !insert_insert_eq.
  - now rewrite Hgl.
  - exact Hlt1.
  - rewrite Hgl. exact Hne.
  - now rewrite Hgl.
  - exact Hlo1.
  - reflexivity.
Qed.

Lemma X20_solver_call_is_repeatable_witness :
  exists st1,
    oblique_shock_wave (scratch_state 3.0 30 1.4 [0; 0]) = (Returned (VRef 1%nat), st1) /\
    oblique_shock_wave st1 = (Returned (VRef 1%nat), st1) /\
    globals st1 !! "ob" = Some (VRef 1%nat).
Proof.
  apply (X20_solver_call_is_repeatable
           (scratch_state 3.0 30 1.4 [0; 0]) 3.0 (30 * PI / 180) 1.4 2%nat ∅ 1%nat [0; 0]).
  - apply scratch_state_setup.
  - lra.
  - apply small_square_in_range. lra.
  - reflexivity.
  - reflexivity.
  - discriminate.
  - reflexivity.
  - reflexivity.
  - reflexivity.
Defined.
